(** * apns: the notification queue, its batched flush and the feedback reader

    A shallow embedding of the Go package [apns]:
    - the notification queue ([notificationQueue] with [AddNotification],
      [IsHasToSend], [Put], [Get], [ResendFromID], [WriteTo] and the cache
      eviction pass started by [newNotificationQueue]);
    - the feedback reader ([Feedback]);
    - the send loop of the client ([sendQueue]), run on its own;
    - [Send] and [sendQueue] as goroutines that share the client, one step
      per lock section.

    Go values are modelled as follows.  A [uint32] is a [Z] kept in
    [0, 2^32) by [wrap32]; an [int] used as a slice index is a [nat]; byte
    counts ([int], [int64]) are [Z]; a [[]byte] is a [list byte]; a Go
    [string] is a [string]; a [time.Time] is a [Z] whose value [0] is the
    zero time; a run-time panic (index out of range) is [None]. *)

From Stdlib Require Import ZArith Lia Bool Ascii String.
From Stdlib Require Import Strings.Byte.
From stdpp Require Import base list.
From coqutil Require Import Z.bitblast.

Local Open Scope Z_scope.

(** ** Errors and time *)

(** Go's [error] values: [io.EOF] is the only one the code tells apart. *)
Inductive error : Type :=
| EOF
| Failure (code : nat).

Definition is_EOF (e : error) : bool :=
  match e with EOF => true | Failure _ => false end.

(** [time.Time]: [0] is the zero value ("not yet transmitted"). *)
Definition Time : Type := Z.

(** [t.After(u)]. *)
Definition After (t u : Time) : bool := u <? t.

(** [uint32] arithmetic wraps around. *)
Definition wrap32 (z : Z) : Z := z mod 2 ^ 32.

(** ** encoding/hex *)

Module hex.

(** The digit a character stands for ([reverseHexTable]); upper and lower
    case letters are both accepted. *)
Definition fromHexChar (c : ascii) : option N :=
  let n := N_of_ascii c in
  if ((48 <=? n) && (n <=? 57))%N then Some (n - 48)%N
  else if ((97 <=? n) && (n <=? 102))%N then Some (n - 87)%N
  else if ((65 <=? n) && (n <=? 70))%N then Some (n - 55)%N
  else None.

Definition mkbyte (a b : N) : byte :=
  match Byte.of_N (N.lor (N.shiftl a 4) b) with
  | Some x => x
  | None => x00
  end.

(** [hex.Decode]: two digits per byte; an invalid digit or an odd length is
    an error. *)
Fixpoint Decode (src : list ascii) : option (list byte) :=
  match src with
  | [] => Some []
  | [ _ ] => None
  | p :: q :: rest =>
      match fromHexChar p, fromHexChar q with
      | Some a, Some b =>
          match Decode rest with
          | Some out => Some (mkbyte a b :: out)
          | None => None
          end
      | _, _ => None
      end
  end.

Definition DecodeString (s : string) : option (list byte) :=
  Decode (list_ascii_of_string s).

End hex.

(** ** Queued items *)

(** Modelled from the spec: the [notification] struct is declared outside the
    files at hand; the queue uses its fields [ID] and [Sended], and the spec
    describes an item as a token and a serialized payload plus these two. *)
Record notification : Type := mkNotification {
  ID : Z;               (* uint32 *)
  Token : list byte;
  Payload : list byte;
  Sended : Time;
}.

Definition set_ID (n : notification) (id : Z) : notification :=
  {| ID := id; Token := Token n; Payload := Payload n; Sended := Sended n |}.

Definition set_Sended (n : notification) (t : Time) : notification :=
  {| ID := ID n; Token := Token n; Payload := Payload n; Sended := t |}.

(** What the queue takes from the rest of the package: the template
    conversion, the per-item serializer and the tunable constants. *)
Class Package : Type := {
  Notification : Type;
  (* ntf.convert() *)
  convert : Notification -> notification + error;
  (* template.WithToken(btoken) *)
  WithToken : notification -> list byte -> notification;
  (* ntf.Len() *)
  Len : notification -> Z;
  (* ntf.WriteTo(buf): the bytes appended to the buffer, and the error *)
  ntfWriteTo : notification -> list byte * option error;
  MaxFrameBuffer : Z;
  CacheLifeTime : Z;
}.

(** ** io.Writer and bytes.Buffer *)

(** The sink of a flush.  [wrote] logs the bytes each [Write] call accepted;
    [faults] scripts the calls to come: [None] accepts the whole slice,
    [Some (n, e)] accepts at most [n] bytes and returns the error [e]; once
    the script is over every call succeeds. *)
Record Writer : Type := mkWriter {
  wrote : list (list byte);
  faults : list (option (nat * error));
}.

(** [w.Write(p)]: the writer after the call, the count and the error. *)
Definition Write (w : Writer) (p : list byte)
    : Writer * Z * option error :=
  match faults w with
  | [] =>
      ({| wrote := wrote w ++ [p]; faults := [] |},
       Z.of_nat (length p), None)
  | None :: rest =>
      ({| wrote := wrote w ++ [p]; faults := rest |},
       Z.of_nat (length p), None)
  | Some (n, e) :: rest =>
      ({| wrote := wrote w ++ [take n p]; faults := rest |},
       Z.of_nat (length (take n p)), Some e)
  end.

(** [bytes.Buffer.WriteTo]: an empty buffer makes no [Write] call; after a
    failed call the unwritten bytes stay in the buffer; otherwise the buffer
    is reset.  (A scripted [Writer] accepts everything when it returns no
    error, so [io.ErrShortWrite] does not arise.) *)
Definition Buffer_WriteTo (buf : list byte) (w : Writer)
    : list byte * Writer * Z * option error :=
  match buf with
  | [] => ([], w, 0, None)
  | _ =>
      let '(w', m, e) := Write w buf in
      match e with
      | Some _ => (drop (Z.to_nat m) buf, w', m, e)
      | None => ([], w', m, None)
      end
  end.

(** ** The queue *)

Record notificationQueue : Type := mkQueue {
  qlist : list notification;   (* list *)
  counter : Z;                 (* uint32 *)
  idUnsended : nat;            (* index of the first unsent item *)
}.

(** [newNotificationQueue], without the eviction goroutine it starts; one
    pass of that goroutine is [evict] below. *)
Definition newNotificationQueue : notificationQueue :=
  {| qlist := []; counter := 0; idUnsended := 0 |}.

Section Queue.
Context `{Package}.

(** One iteration of the token loop of [AddNotification]. *)
Definition add_token (template : notification) (q : notificationQueue)
    (token : string) : notificationQueue :=
  match hex.DecodeString token with
  | None => q
  | Some btoken =>
      if negb (length btoken =? 32)%nat then q
      else
        let item := WithToken template btoken in
        let c := wrap32 (counter q + 1) in
        {| qlist := qlist q ++ [set_ID item c];
           counter := c;
           idUnsended := idUnsended q |}
  end.

Definition AddNotification (q : notificationQueue) (ntf : Notification)
    (tokens : list string) : notificationQueue * option error :=
  match tokens with
  | [] => (q, None)
  | _ =>
      match convert ntf with
      | inr err => (q, Some err)
      | inl template => (fold_left (add_token template) tokens q, None)
      end
  end.

Definition IsHasToSend (q : notificationQueue) : bool :=
  (idUnsended q <? length (qlist q))%nat.

(** [Put] takes pointers: [Put(list ...*notification)].  A pointer of the
    caller is a [nat] and [mem] gives the object behind each of them (none
    is nil); the same pointer may come more than once.

    The first loop of [Put] writes the ids through the pointers: an object
    without an id gets the next one, and is found with that id when its
    pointer comes again.  Returns the counter and the objects after the
    loop. *)
Fixpoint put_ids (c : Z) (mem : nat -> notification) (l : list nat)
    : Z * (nat -> notification) :=
  match l with
  | [] => (c, mem)
  | item :: rest =>
      if ID (mem item) =? 0 then
        let c' := wrap32 (c + 1) in
        put_ids c'
          (fun a => if (a =? item)%nat then set_ID (mem item) c' else mem a)
          rest
      else put_ids c mem rest
  end.

(** [Put]: the queue afterwards, and the caller's objects as the call
    leaves them.  The appended entries are the objects behind the pointers,
    read after the loop. *)
Definition Put (q : notificationQueue) (mem : nat -> notification)
    (l : list nat) : notificationQueue * (nat -> notification) :=
  let '(c, mem') := put_ids (counter q) mem l in
  ({| qlist := qlist q ++ map mem' l; counter := c;
      idUnsended := idUnsended q |}, mem').

(** [Get]; [now] is the reading of [time.Now()].  The item is stamped in
    place, so the stored item and the returned one are the same. *)
Definition Get (now : Time) (q : notificationQueue)
    : notificationQueue * option notification :=
  if negb (IsHasToSend q) then (q, None)
  else
    match qlist q !! idUnsended q with
    | None => (q, None) (* not reached: the index was just checked *)
    | Some result =>
        let result' := set_Sended result now in
        ({| qlist := <[idUnsended q := result']> (qlist q);
            counter := counter q;
            idUnsended := S (idUnsended q) |}, Some result')
    end.

(** The loop of [ResendFromID]: [i] is the loop index and [n] the number of
    iterations left, [idUnsended - i]. *)
Fixpoint resend_scan (q : notificationQueue) (id : Z) (exclude : bool)
    (n i : nat) : option (notificationQueue * bool) :=
  match n with
  | O => Some (q, false)
  | S n' =>
      match qlist q !! i with
      | None => None
      | Some x =>
          if negb (ID x =? id) then resend_scan q id exclude n' (S i)
          else
            let i' := if exclude then S i else i in
            Some ({| qlist := drop i' (qlist q);
                     counter := counter q;
                     idUnsended := 0 |}, true)
      end
  end.

Definition ResendFromID (q : notificationQueue) (id : Z) (exclude : bool)
    : option (notificationQueue * bool) :=
  resend_scan q id exclude (idUnsended q) 0.

(** The inner loop of the eviction goroutine, [for i := q.idUnsended; i > 0;
    i--]. *)
Fixpoint evict_scan (q : notificationQueue) (lifeTime : Time) (i : nat)
    : option notificationQueue :=
  match i with
  | O => Some q
  | S j =>
      match qlist q !! j with
      | None => None
      | Some x =>
          if After (Sended x) lifeTime then evict_scan q lifeTime j
          else Some {| qlist := drop i (qlist q);
                       counter := counter q;
                       idUnsended := idUnsended q - i |}
      end
  end.

(** One pass of the eviction loop, run at time [now]. *)
Definition evict (now : Time) (q : notificationQueue)
    : option notificationQueue :=
  let lifeTime := now - CacheLifeTime in
  evict_scan q lifeTime (idUnsended q).

(** The state of the loop of [WriteTo]. *)
Record flush : Type := mkFlush {
  buf : list byte;          (* the pooled buffer *)
  sink : Writer;            (* w *)
  total : Z;
  err : option error;
  sended : nat;
}.

(** The loop of [WriteTo] from index [i] on; [pending] holds the items
    [q.list[i:]], [length] is [len(q.list)], and [now i] is the reading of
    [time.Now()] when item [i] is stamped.  Returns the items as the loop
    leaves them (stamping is done in place) and the final loop state. *)
Fixpoint WriteTo_loop (now : nat -> Time) (length i : nat)
    (pending : list notification) (st : flush)
    : list notification * flush :=
  match pending with
  | [] => ([], st)
  | ntf :: rest =>
      (* buf.WriteTo(w), then break on an error or record [sended = i] *)
      let send (ntf' : notification) (b : list byte) :=
        let '(b', w', n, e) := Buffer_WriteTo b (sink st) in
        match e with
        | Some _ =>
            (ntf' :: rest,
             {| buf := b'; sink := w'; total := total st + n; err := e;
                sended := sended st |})
        | None =>
            let '(rest', st') :=
              WriteTo_loop now length (S i) rest
                {| buf := b'; sink := w'; total := total st + n; err := None;
                   sended := i |} in
            (ntf' :: rest', st')
        end in
      if Z.of_nat (List.length (buf st)) + Len ntf <=? MaxFrameBuffer then
        match ntfWriteTo ntf with
        | (bytes, Some e) =>
            (ntf :: rest,
             {| buf := buf st ++ bytes; sink := sink st; total := total st;
                err := Some e; sended := sended st |})
        | (bytes, None) =>
            let ntf' := set_Sended ntf (now i) in
            if (i <? length - 1)%nat then
              let '(rest', st') :=
                WriteTo_loop now length (S i) rest
                  {| buf := buf st ++ bytes; sink := sink st;
                     total := total st; err := None; sended := sended st |} in
              (ntf' :: rest', st')
            else send ntf' (buf st ++ bytes)
        end
      else send ntf (buf st)
  end.

(** [WriteTo]: the queue and the sink after the call, [total] and [err].
    The buffer comes empty from the pool. *)
Definition WriteTo (now : nat -> Time) (q : notificationQueue) (w : Writer)
    : notificationQueue * Writer * Z * option error :=
  let '(pending', st) :=
    WriteTo_loop now (length (qlist q)) (idUnsended q)
      (drop (idUnsended q) (qlist q))
      {| buf := []; sink := w; total := 0; err := None; sended := 0 |} in
  let l' := take (idUnsended q) (qlist q) ++ pending' in
  if (idUnsended q <? sended st)%nat then
    ({| qlist := l'; counter := counter q; idUnsended := S (sended st) |},
     sink st, total st, err st)
  else
    ({| qlist := l'; counter := counter q; idUnsended := idUnsended q |},
     sink st, total st, err st).

End Queue.

(** ** The feedback reader *)

Module feedback.

Definition feedbackServer : string := "feedback.push.apple.com:2196".
Definition feedbackServerSandbox : string :=
  "feedback.sandbox.push.apple.com:2196".

Record FeedbackResponse : Type := mkResponse {
  timestamp : Z;        (* uint32 *)
  Token : list byte;
}.

(** The connection, as the reader sees it: [reads] scripts the outcome of
    each [Read] call to come, the bytes it delivers and the error it returns;
    when the script is over the stream is at its end ([io.EOF]). *)
Record Conn : Type := mkConn {
  reads : list (list byte * option error);
  closed : bool;
}.

(** [conn.Read(p)]: the delivered bytes overwrite the front of [p], whose
    length does not change.  Returns the connection, [p] after the call and
    the error. *)
Definition Conn_Read (c : Conn) (p : list byte)
    : Conn * list byte * option error :=
  match reads c with
  | [] => (c, p, Some EOF)
  | (data, e) :: rest =>
      let d := take (length p) data in
      ({| reads := rest; closed := closed c |},
       d ++ drop (length d) p, e)
  end.

Definition Conn_Close (c : Conn) : Conn :=
  {| reads := reads c; closed := true |}.

(** Modelled from the spec: [Config] is declared outside the files at hand;
    the reader uses its [Sandbox] flag and its [Dial] function. *)
Record Config : Type := mkConfig {
  Sandbox : bool;
  Dial : string -> Conn + error;
}.

Definition u8 (b : byte) : Z := Z.of_N (Byte.to_N b).

(** [binary.BigEndian.Uint16(b)] and [binary.BigEndian.Uint32(b)]; the
    reader passes slices of 2 and 4 bytes. *)
Definition Uint16 (b : list byte) : Z :=
  Z.lor (u8 (nth 1 b x00)) (Z.shiftl (u8 (nth 0 b x00)) 8).

Definition Uint32 (b : list byte) : Z :=
  Z.lor (Z.lor (Z.lor (u8 (nth 3 b x00)) (Z.shiftl (u8 (nth 2 b x00)) 8))
               (Z.shiftl (u8 (nth 1 b x00)) 16))
        (Z.shiftl (u8 (nth 0 b x00)) 24).

(** [if err == io.EOF { err = nil }]. *)
Definition drop_EOF (e : error) : option error :=
  if is_EOF e then None else Some e.

(** The read loop of [Feedback]; every turn costs one unit of [fuel]. *)
Fixpoint Feedback_loop (fuel : nat) (conn : Conn) (header : list byte)
    (result : list FeedbackResponse)
    : option (Conn * list FeedbackResponse * option error) :=
  match fuel with
  | O => None
  | S fuel' =>
      let '(conn1, header1, e1) := Conn_Read conn header in
      match e1 with
      | Some e => Some (conn1, result, drop_EOF e)
      | None =>
          let tokenSize := Z.to_nat (Uint16 (take 2 (drop 4 header1))) in
          let tokenBuffer := replicate tokenSize x00 in
          let '(conn2, tokenBuffer2, e2) := Conn_Read conn1 tokenBuffer in
          match e2 with
          | Some e => Some (conn2, result, drop_EOF e)
          | None =>
              let response :=
                {| timestamp := Uint32 (take 4 header1);
                   Token := tokenBuffer2 |} in
              Feedback_loop fuel' conn2 header1 (result ++ [response])
          end
      end
  end.

(** [Feedback]: the records, the error and, when one was opened, the
    connection as the deferred [conn.Close()] leaves it.  A turn of the loop
    that goes on has used two entries of the script, so the fuel given here
    is never used up ([feedback_facts.Feedback_loop_returns]). *)
Definition Feedback (config : Config)
    : option (list FeedbackResponse * option error * option Conn) :=
  let addr :=
    if Sandbox config then feedbackServerSandbox else feedbackServer in
  match Dial config addr with
  | inr err => Some ([], Some err, None)
  | inl conn =>
      match Feedback_loop (S (length (reads conn))) conn
              (replicate 6 x00) [] with
      | Some (conn', result, err) =>
          Some (result, err, Some (Conn_Close conn'))
      | None => None
      end
  end.

(** The wire format of the feedback service, after the spec: a 4-byte
    big-endian timestamp, a 2-byte big-endian token length, the token. *)
Definition put_header (r : FeedbackResponse) : list byte :=
  let byte_at (z : Z) (k : Z) : byte :=
    match Byte.of_N (Z.to_N (Z.land (Z.shiftr z k) 255)) with
    | Some b => b
    | None => x00
    end in
  let n := Z.of_nat (length (Token r)) in
  [byte_at (timestamp r) 24; byte_at (timestamp r) 16;
   byte_at (timestamp r) 8; byte_at (timestamp r) 0;
   byte_at n 8; byte_at n 0].

(** A stream that delivers each header and each token in one [Read]. *)
Definition stream_of (rs : list FeedbackResponse)
    : list (list byte * option error) :=
  flat_map (fun r => [(put_header r, None); (Token r, None)]) rs.

(** A record fits the wire format: the timestamp is a [uint32] and the
    token length a [uint16]. *)
Definition fits_wire (r : FeedbackResponse) : Prop :=
  0 <= timestamp r < 2 ^ 32 /\ Z.of_nat (length (Token r)) < 2 ^ 16.

(** How a stream ends, and with which error: at its end between two records
    or after a header (a graceful end-of-stream, [EOF]), or with a [Read]
    that returns an error, for a header or for a token. *)
Inductive stops_with : list (list byte * option error) -> error -> Prop :=
| stop_at_end : stops_with [] EOF
| stop_at_header d e rest : stops_with ((d, Some e) :: rest) e
| stop_after_header h : stops_with [(h, None)] EOF
| stop_at_token h d e rest :
    stops_with ((h, None) :: (d, Some e) :: rest) e.

(** The feedback scenario of the design document. *)
Definition two_records : list FeedbackResponse :=
  [ {| timestamp := 1000000000; Token := replicate 32 xaa |};
    {| timestamp := 1000000100; Token := replicate 32 xbb |} ].

Definition two_record_config : Config :=
  {| Sandbox := false;
     Dial := fun _ => inl {| reads := stream_of two_records;
                             closed := false |} |}.

(** The same stream, as a connection may deliver it: the first token comes
    in two pieces, of 30 and of 2 bytes, and each later [Read] returns as
    many of the bytes left as its buffer takes. *)
Definition fragmented_stream : list (list byte * option error) :=
  [ (put_header {| timestamp := 1000000000; Token := replicate 32 xaa |},
     None);
    (replicate 30 xaa, None);
    (replicate 2 xaa, None);
    (put_header {| timestamp := 1000000100; Token := replicate 32 xbb |}
       ++ replicate 26 xbb, None);
    (replicate 6 xbb, None) ].

Definition fragmented_config : Config :=
  {| Sandbox := false;
     Dial := fun _ => inl {| reads := fragmented_stream;
                             closed := false |} |}.

(** One record, whose token arrives whole and together with [io.EOF]. *)
Definition token_with_EOF_config : Config :=
  {| Sandbox := false;
     Dial := fun _ =>
       inl {| reads :=
                [ (put_header {| timestamp := 1000000000;
                                 Token := replicate 32 xaa |}, None);
                  (replicate 32 xaa, Some EOF) ];
              closed := false |} |}.

End feedback.

(** ** Properties stated in the words of the design document *)

(** A token is valid when it decodes to exactly 32 bytes. *)
Definition valid_token (token : string) : bool :=
  match hex.DecodeString token with
  | Some b => (length b =? 32)%nat
  | None => false
  end.

Definition token_bytes (token : string) : list byte :=
  match hex.DecodeString token with
  | Some b => b
  | None => []
  end.

(** The items an enqueue call is to append: one per valid token, in the
    order supplied, each with the next id after [c]. *)
Fixpoint expand `{Package} (template : notification) (c : Z)
    (tokens : list string) : list notification :=
  match tokens with
  | [] => []
  | t :: ts =>
      if valid_token t then
        set_ID (WithToken template (token_bytes t)) (wrap32 (c + 1))
          :: expand template (wrap32 (c + 1)) ts
      else expand template c ts
  end.

(** Ids grow strictly along the queue; distinct positions then hold
    distinct ids. *)
Definition ids_increasing (l : list notification) : Prop :=
  forall i j a b, (i < j)%nat -> l !! i = Some a -> l !! j = Some b ->
    ID a < ID b.

(** A run of enqueue calls, each a template and its tokens; a call that
    fails leaves the queue as it was. *)
Definition enqueue_all `{Package} (calls : list (Notification * list string))
    (q : notificationQueue) : notificationQueue :=
  fold_left (fun q c => fst (AddNotification q (fst c) (snd c))) calls q.

(** What a run of enqueue calls on a fresh queue keeps true: the counter is
    the number of items, wrapped, and the ids are 1, 2, ... wrapped. *)
Definition counted (q : notificationQueue) : Prop :=
  counter q = wrap32 (Z.of_nat (length (qlist q))) /\
  map ID (qlist q) =
    map (fun k => wrap32 (Z.of_nat k)) (seq 1 (length (qlist q))).

(** The cursor stays within the list. *)
Definition cursor_in_range (q : notificationQueue) : Prop :=
  (idUnsended q <= length (qlist q))%nat.

(** Every item before the cursor carries a send time. *)
Definition sent_are_stamped (q : notificationQueue) : Prop :=
  forall i x, (i < idUnsended q)%nat -> qlist q !! i = Some x ->
    Sended x <> 0.

(** Send times do not decrease along the sent region. *)
Definition sent_sorted (q : notificationQueue) : Prop :=
  forall i j x y, (i <= j)%nat -> (j < idUnsended q)%nat ->
    qlist q !! i = Some x -> qlist q !! j = Some y ->
    Sended x <= Sended y.

(** An item is stale at [now] when it was sent at or before
    [now - CacheLifeTime]. *)
Definition stale `{Package} (now : Time) (x : notification) : bool :=
  Sended x <=? now - CacheLifeTime.

(** ** Sample data *)

(** A package whose items all serialize to 100 bytes, the first of which is
    the low byte of the id, under a frame limit of 2048 bytes. *)
Definition wire100 (n : notification) : list byte :=
  match Byte.of_N (Z.to_N (ID n mod 256)) with
  | Some b => b :: replicate 99 x00
  | None => replicate 100 x00
  end.

Definition fixed100 : Package := {|
  Notification := list byte;
  convert := fun p =>
    inl {| ID := 0; Token := []; Payload := p; Sended := 0 |};
  WithToken := fun t b =>
    {| ID := ID t; Token := b; Payload := Payload t; Sended := Sended t |};
  Len := fun _ => 100;
  ntfWriteTo := fun n => (wire100 n, None);
  MaxFrameBuffer := 2048;
  CacheLifeTime := 600;
|}.

Definition sample_token : string :=
  "F389410AE1B57972DBBF6EB0C05C2626AB69EDE88F523D7EED49FA6E63A6C266".

(** A sink that accepts every write. *)
Definition quiet_sink : Writer := {| wrote := []; faults := [] |}.

(** A clock that reads 1000 at every call. *)
Definition noon : nat -> Time := fun _ => 1000.

(** Thirty, and one, freshly enqueued items. *)
Definition queue30 : notificationQueue :=
  fst (AddNotification (H := fixed100) newNotificationQueue []
         (replicate 30 sample_token)).

Definition queue1 : notificationQueue :=
  fst (AddNotification (H := fixed100) newNotificationQueue []
         [sample_token]).

(** Six enqueued items, the first five fetched by [Get] at the times 100
    to 500. *)
Definition queue6 : notificationQueue :=
  fold_left (fun q t => fst (Get t q)) [100; 200; 300; 400; 500]
    (fst (AddNotification (H := fixed100) newNotificationQueue []
            (replicate 6 sample_token))).

(** Tokens of 31 and of 33 bytes, one that is not hexadecimal, one of odd
    length, and a valid one. *)
Definition mixed_tokens : list string :=
  ["F389410AE1B57972DBBF6EB0C05C2626AB69EDE88F523D7EED49FA6E63A6C2"%string;
   "F389410AE1B57972DBBF6EB0C05C2626AB69EDE88F523D7EED49FA6E63A6C26600"%string;
   "Z389410AE1B57972DBBF6EB0C05C2626AB69EDE88F523D7EED49FA6E63A6C266"%string;
   "F38"%string;
   sample_token].

(** Two enqueue calls, of two tokens and of one. *)
Definition three_tokens_in_two_calls
    : list (@Notification fixed100 * list string) :=
  [([], [sample_token; sample_token]); ([], [sample_token])].

(** As many tokens as a [uint32] has values. *)
Definition wrap_count : nat := Z.to_nat (2 ^ 32).

(** ** Encoding to hexadecimal *)

(** [hextable]: the digit of a value below 16. *)
Definition hexdigit (n : N) : ascii :=
  nth (N.to_nat n) (list_ascii_of_string "0123456789abcdef") "0"%char.

(** [hex.Encode]: two lower-case digits per byte, the high one first. *)
Definition hex_Encode (src : list byte) : list ascii :=
  flat_map (fun v => [hexdigit (N.shiftr (Byte.to_N v) 4);
                      hexdigit (N.land (Byte.to_N v) 15)]) src.

Definition hex_EncodeToString (src : list byte) : string :=
  string_of_list_ascii (hex_Encode src).

(** [FeedbackResponse.String]. *)
Definition FeedbackResponse_String (fr : feedback.FeedbackResponse) : string :=
  hex_EncodeToString (feedback.Token fr).




(** Three objects of a caller, the third of which carries the id 7; all
    other pointers lead to objects without an id. *)
Definition three_objects (p : nat) : notification :=
  {| ID := if (p =? 2)%nat then 7 else 0; Token := []; Payload := [];
     Sended := 0 |}.

(** An item as a flush may leave it: as it was, or stamped. *)
Definition same_or_stamped (x y : notification) : Prop :=
  y = x \/ exists t, y = set_Sended x t.

(** The bytes of a list of items, one after the other. *)
Definition frame_of `{Package} (l : list notification) : list byte :=
  concat (map (fun x => (ntfWriteTo x).1) l).

(** The serializer works on an item: it returns no error and writes as many
    bytes as [Len] announces. *)
Definition serializes `{Package} (x : notification) : Prop :=
  (ntfWriteTo x).2 = None /\ Z.of_nat (length (ntfWriteTo x).1) = Len x.

(** Ten freshly enqueued items. *)
Definition queue10 : notificationQueue :=
  fst (AddNotification (H := fixed100) newNotificationQueue []
         (replicate 10 sample_token)).

(** ** Callers of the queue *)


(** A package whose conversion rejects the empty payload. *)
Definition strict100 : Package := {|
  Notification := list byte;
  convert := fun p =>
    match p with
    | [] => inr (Failure 1)
    | _ => inl {| ID := 0; Token := []; Payload := p; Sended := 0 |}
    end;
  WithToken := @WithToken fixed100;
  Len := @Len fixed100;
  ntfWriteTo := @ntfWriteTo fixed100;
  MaxFrameBuffer := 2048;
  CacheLifeTime := 600;
|}.

(** ** Runs of queue operations *)

(** The operations of the queue, with their arguments. *)
Inductive queue_op `{Package} : Type :=
| op_AddNotification (ntf : Notification) (tokens : list string)
| op_Put (mem : nat -> notification) (l : list nat)
| op_Get (now : Time)
| op_ResendFromID (id : Z) (exclude : bool)
| op_WriteTo (now : nat -> Time) (w : Writer)
| op_evict (now : Time).

(** One operation, run on its own; [None] is a run-time panic. *)
Definition run_op `{Package} (o : queue_op) (q : notificationQueue)
    : option notificationQueue :=
  match o with
  | op_AddNotification ntf tokens => Some (AddNotification q ntf tokens).1
  | op_Put mem l => Some (Put q mem l).1
  | op_Get now => Some (Get now q).1
  | op_ResendFromID id exclude => fst <$> ResendFromID q id exclude
  | op_WriteTo now w => Some (WriteTo now q w).1.1.1
  | op_evict now => evict now q
  end.

(** A run of operations, one after the other. *)
Fixpoint run_ops `{Package} (ops : list queue_op) (q : notificationQueue)
    : option notificationQueue :=
  match ops with
  | [] => Some q
  | o :: os =>
      match run_op o q with
      | Some q' => run_ops os q'
      | None => None
      end
  end.

(** ** The client and its send loop *)

(** Modelled from the spec: the connection type [Conn] of the client is
    declared outside the files at hand.  The send loop calls its [Connect],
    reads its [isConnected] and writes the buffer to it; after the design
    document a failed write makes the loop go back to the connect step.
    [wire] is the sink behind the connection, [dials] scripts the outcomes
    of the [Connect] calls to come (a script that is over means success). *)
Record Conn : Type := mkConn {
  wire : Writer;
  isConnected : bool;
  dials : list (option error);
}.

(** [conn.Connect()]. *)
Definition Conn_Connect (c : Conn) : Conn * option error :=
  match dials c with
  | Some e :: rest =>
      ({| wire := wire c; isConnected := false; dials := rest |}, Some e)
  | None :: rest =>
      ({| wire := wire c; isConnected := true; dials := rest |}, None)
  | [] => ({| wire := wire c; isConnected := true; dials := [] |}, None)
  end.

(** [buf.WriteTo(client.conn)]. *)
Definition Conn_flush (b : list byte) (c : Conn)
    : list byte * Conn * Z * option error :=
  let '(b', w', n, e) := Buffer_WriteTo b (wire c) in
  (b',
   {| wire := w';
      isConnected := match e with Some _ => false | None => isConnected c end;
      dials := dials c |},
   n, e).

(** The fields of [Client] that the send loop uses. *)
Record Client : Type := mkClient {
  conn : Conn;
  queue : notificationQueue;
  isSendign : bool;
  Delay : Z;
}.

(** How a call ends: it returns, it panics, or the model ran out of
    fuel. *)
Inductive outcome (A : Type) : Type :=
| Returns (a : A)
| Panics
| OutOfFuel.
Arguments Returns {A} a.
Arguments Panics {A}.
Arguments OutOfFuel {A}.

(** The local state of [sendQueue]: the client, the pooled buffer, the item
    in hand [ntf], the count [sended] and the number of clock readings so
    far. *)
Record sending : Type := mkSending {
  s_client : Client;
  s_buf : list byte;
  s_ntf : option notification;
  s_sended : nat;
  s_tick : nat;
}.

Definition with_queue (c : Client) (q : notificationQueue) : Client :=
  {| conn := conn c; queue := q; isSendign := isSendign c;
     Delay := Delay c |}.

Definition with_conn (c : Client) (k : Conn) : Client :=
  {| conn := k; queue := queue c; isSendign := isSendign c;
     Delay := Delay c |}.

Definition with_isSendign (c : Client) (b : bool) : Client :=
  {| conn := conn c; queue := queue c; isSendign := b; Delay := Delay c |}.

Section SendQueue.
Context `{Package}.
Variable clock : nat -> Time.

(** [if ntf == nil { ntf = Get(); if ntf == nil && Delay > 0 { Sleep;
    ntf = Get() } }]; run alone, the sleep changes nothing. *)
Definition fetch (st : sending) : sending :=
  match s_ntf st with
  | Some _ => st
  | None =>
      let '(q1, n1) := Get (clock (s_tick st)) (queue (s_client st)) in
      match n1 with
      | None =>
          if 0 <? Delay (s_client st) then
            let '(q2, n2) := Get (clock (S (s_tick st))) q1 in
            {| s_client := with_queue (s_client st) q2; s_buf := s_buf st;
               s_ntf := n2; s_sended := s_sended st;
               s_tick := S (S (s_tick st)) |}
          else
            {| s_client := with_queue (s_client st) q1; s_buf := s_buf st;
               s_ntf := None; s_sended := s_sended st;
               s_tick := S (s_tick st) |}
      | Some _ =>
          {| s_client := with_queue (s_client st) q1; s_buf := s_buf st;
             s_ntf := n1; s_sended := s_sended st;
             s_tick := S (s_tick st) |}
      end
  end.

(** The connect step at the head of the outer loop; [None] is the panic. *)
Definition connect_step (st : sending) : option sending :=
  if isConnected (conn (s_client st)) then Some st
  else
    match Conn_Connect (conn (s_client st)) with
    | (_, Some _) => None
    | (k, None) =>
        Some {| s_client := with_conn (s_client st) k; s_buf := s_buf st;
                s_ntf := s_ntf st; s_sended := s_sended st;
                s_tick := s_tick st |}
    end.

(** [ntf.WriteTo(buf); ntf.Sended = time.Now(); ntf = nil; sended++].  The
    item in hand is the one [Get] fetched last, which sits just before the
    cursor; it is stamped in place. *)
Definition put_in_buffer (st : sending) (ntf : notification) : sending :=
  let q := queue (s_client st) in
  let i := pred (idUnsended q) in
  let q' := {| qlist := <[i := set_Sended ntf (clock (s_tick st))]> (qlist q);
               counter := counter q; idUnsended := idUnsended q |} in
  {| s_client := with_queue (s_client st) q';
     s_buf := s_buf st ++ (ntfWriteTo ntf).1;
     s_ntf := None;
     s_sended := S (s_sended st);
     s_tick := S (s_tick st) |}.

(** The loops of [sendQueue] from the inner loop on; a turn of the inner
    loop costs one unit of fuel. *)
Fixpoint send_loop (fuel : nat) (st : sending) : outcome sending :=
  match fuel with
  | O => OutOfFuel
  | S fuel' =>
      let st1 := fetch st in
      let full :=
        match s_ntf st1 with
        | None => true
        | Some ntf =>
            MaxFrameBuffer <? Z.of_nat (length (s_buf st1)) + Len ntf
        end in
      let after_flush (st2 : sending) : outcome sending :=
        match s_ntf st2 with
        | None => Returns st2
        | Some ntf => send_loop fuel' (put_in_buffer st2 ntf)
        end in
      if full then
        let '(b', k, n, e) := Conn_flush (s_buf st1) (conn (s_client st1)) in
        match e with
        | Some _ =>
            match connect_step
                    {| s_client := with_conn (s_client st1) k; s_buf := b';
                       s_ntf := s_ntf st1; s_sended := s_sended st1;
                       s_tick := s_tick st1 |} with
            | None => Panics
            | Some st2 => send_loop fuel' st2
            end
        | None =>
            after_flush
              {| s_client := with_conn (s_client st1) k; s_buf := b';
                 s_ntf := s_ntf st1; s_sended := 0;
                 s_tick := S (s_tick st1) |}
        end
      else after_flush st1
  end.

(** [sendQueue], run on its own: nobody else touches the queue while it
    runs.  The fuel covers every pending item and every fault the sink has
    in store. *)
Definition sendQueue (c : Client) : outcome Client :=
  if isSendign c then Returns c
  else if negb (IsHasToSend (queue c)) then Returns c
  else
    let c1 := with_isSendign c true in
    let st := {| s_client := c1; s_buf := []; s_ntf := None; s_sended := 0;
                 s_tick := 0 |} in
    match connect_step st with
    | None => Panics
    | Some st1 =>
        match send_loop
                (S (length (qlist (queue c)) - idUnsended (queue c)
                    + length (faults (wire (conn c)))))
                st1 with
        | Returns st2 => Returns (with_isSendign (s_client st2) false)
        | Panics => Panics
        | OutOfFuel => OutOfFuel
        end
    end.

End SendQueue.

(** What the send loop has still to deliver: the buffer, the item in hand
    and the pending items. *)
Definition hand_bytes `{Package} (o : option notification) : list byte :=
  match o with
  | Some x => (ntfWriteTo x).1
  | None => []
  end.

Definition todo `{Package} (st : sending) : list byte :=
  s_buf st ++ hand_bytes (s_ntf st)
  ++ frame_of (drop (idUnsended (queue (s_client st)))
                 (qlist (queue (s_client st)))).

(** The item in hand is the one just before the cursor. *)
Definition in_hand_ok (st : sending) : Prop :=
  match s_ntf st with
  | Some x =>
      exists i, idUnsended (queue (s_client st)) = S i /\
        qlist (queue (s_client st)) !! i = Some x
  | None => True
  end.

(** The work ahead of the loop: pending items, the item in hand, and the
    faults the sink has in store. *)
Definition load (st : sending) : nat :=
  length (qlist (queue (s_client st))) - idUnsended (queue (s_client st))
  + match s_ntf st with Some _ => 1 | None => 0 end
  + length (faults (wire (conn (s_client st)))).

(** The serializer does not look at the send time. *)
Definition Sended_blind `{Package} : Prop :=
  forall x t, ntfWriteTo (set_Sended x t) = ntfWriteTo x.

(** A client with thirty pending items, not yet connected, whose sink fails
    twice. *)
Definition client30 : Client :=
  {| conn := {| wire := {| wrote := [];
                           faults := [Some (500%nat, Failure 3); None;
                                      Some (0%nat, EOF)] |};
                isConnected := false; dials := [] |};
     queue := queue30; isSendign := false; Delay := 100 |}.

(** A state from which the loop may go on: no [Connect] to come fails, the
    cursor is in range and the item in hand is where it should be. *)
Definition ready (st : sending) : Prop :=
  Forall (fun d => d = None) (dials (conn (s_client st))) /\
  cursor_in_range (queue (s_client st)) /\ in_hand_ok st.

(** From [st] the loop has reached [st']: the sink has received all there
    was to deliver, the buffer is empty, nothing is pending, and the queue
    differs by send times only. *)
Definition delivered `{Package} (st st' : sending) : Prop :=
  concat (wrote (wire (conn (s_client st'))))
  = concat (wrote (wire (conn (s_client st)))) ++ todo st /\
  s_buf st' = [] /\
  idUnsended (queue (s_client st')) = length (qlist (queue (s_client st'))) /\
  Forall2 same_or_stamped (qlist (queue (s_client st)))
    (qlist (queue (s_client st'))) /\
  counter (queue (s_client st')) = counter (queue (s_client st)) /\
  isSendign (s_client st') = isSendign (s_client st).

(** [Len] announces the bytes that the serializer writes. *)
Definition Len_exact `{Package} : Prop :=
  forall x, Z.of_nat (length (ntfWriteTo x).1) = Len x.

(** Nothing the loop holds is larger than a frame: the buffer, the item in
    hand and each pending item. *)
Definition small `{Package} (st : sending) : Prop :=
  Z.of_nat (length (s_buf st)) <= MaxFrameBuffer /\
  (forall x, s_ntf st = Some x -> Len x <= MaxFrameBuffer) /\
  Forall (fun x => Len x <= MaxFrameBuffer)
    (drop (idUnsended (queue (s_client st))) (qlist (queue (s_client st)))).

(** The sink of [st'] has received frames within the limit since [st]. *)
Definition framed `{Package} (st st' : sending) : Prop :=
  exists frames,
    wrote (wire (conn (s_client st')))
    = wrote (wire (conn (s_client st))) ++ frames /\
    Forall (fun f => Z.of_nat (length f) <= MaxFrameBuffer) frames.

(** ** Goroutines: [Send] and [sendQueue] run together

    [Send] hands its tokens to [AddNotification]; they are modelled as the
    strings that [AddNotification] takes.  The eviction goroutine of the
    queue is left out: it sleeps between its passes, and a schedule in which
    it does not run is a schedule of the program. *)

(** The local variables of a [sendQueue] call: the buffer, the item in hand
    and the count.  The item in hand is a pointer to an item of the queue;
    while only [Send] and [sendQueue] run, the list of the queue only grows
    and an item keeps its index, so the pointer is that index. *)
Record locals : Type := mkLocals {
  l_buf : list byte;
  l_ntf : option nat;
  l_sended : nat;
}.

(** Where a goroutine stands.  A step of a goroutine is one lock section of
    the code (of [client.mu] or of the queue's [mu]) together with the code
    that follows it up to the next one; each constructor names the step that
    the goroutine takes next.  A schedule of such steps is a schedule of the
    program, so what a run of steps reaches, the program can reach. *)
Inductive goroutine `{Package} : Type :=
| Send_AddNotification (ntf : Notification) (tokens : list string)
| Send_read_flag
| Send_go
| sendQueue_read_flag
| sendQueue_IsHasToSend
| sendQueue_set_flag
| sendQueue_connect (l : locals)
| sendQueue_turn (l : locals)
| sendQueue_Get_again (l : locals)
| sendQueue_clear_flag
| Returned (e : option error).

(** The program: the client that the goroutines share, the goroutines in
    the order in which they were started, and the number of clock readings
    so far. *)
Record program `{Package} : Type := mkProgram {
  shared : Client;
  goroutines : list goroutine;
  ticks : nat;
}.

(** What a step gives: the program goes on, the program panics, or there is
    no step to take (no such goroutine, or it has returned). *)
Inductive stepped `{Package} : Type :=
| Goes_on (p : program)
| Panicked
| No_step.

(** A goroutine between setting [isSendign] and clearing it runs the send
    loop. *)
Definition in_send_loop `{Package} (g : goroutine) : bool :=
  match g with
  | sendQueue_connect _ | sendQueue_turn _ | sendQueue_Get_again _
  | sendQueue_clear_flag => true
  | _ => false
  end.

Section Goroutines.
Context `{Package}.
Variable clock : nat -> Time.

(** [if ntf == nil { break reconnect }; ntf.WriteTo(buf);
    ntf.Sended = time.Now(); ntf = nil; sended++]; [None] is the panic of a
    pointer that leads nowhere. *)
Definition after_flush (c : Client) (l : locals) (tick : nat)
    : option (Client * goroutine * nat) :=
  match l_ntf l with
  | None => Some (c, sendQueue_clear_flag, tick)
  | Some i =>
      match qlist (queue c) !! i with
      | None => None
      | Some ntf =>
          let q := queue c in
          let q' := {| qlist := <[i := set_Sended ntf (clock tick)]> (qlist q);
                       counter := counter q;
                       idUnsended := idUnsended q |} in
          Some (with_queue c q',
                sendQueue_turn {| l_buf := l_buf l ++ (ntfWriteTo ntf).1;
                                  l_ntf := None;
                                  l_sended := S (l_sended l) |},
                S tick)
      end
  end.

(** The inner loop from the test of the buffer on, up to the next lock
    section. *)
Definition turn_rest (c : Client) (l : locals) (tick : nat)
    : option (Client * goroutine * nat) :=
  match
    match l_ntf l with
    | None => Some true
    | Some i =>
        match qlist (queue c) !! i with
        | None => None
        | Some ntf =>
            Some (MaxFrameBuffer <? Z.of_nat (length (l_buf l)) + Len ntf)
        end
    end
  with
  | None => None
  | Some true =>
      let '(b', k, n, e) := Conn_flush (l_buf l) (conn c) in
      match e with
      | Some _ =>
          Some (with_conn c k,
                sendQueue_connect {| l_buf := b'; l_ntf := l_ntf l;
                                     l_sended := l_sended l |},
                tick)
      | None =>
          after_flush (with_conn c k)
            {| l_buf := b'; l_ntf := l_ntf l; l_sended := 0 |} (S tick)
      end
  | Some false => after_flush c l tick
  end.

(** The step of goroutine [g]: the client and the goroutine afterwards, the
    goroutine it starts, if any, and the clock readings. *)
Definition step_of (g : goroutine) (c : Client) (tick : nat)
    : option (option (Client * goroutine * option goroutine * nat)) :=
  let goes (r : Client * goroutine * nat) :=
    Some (Some (r.1.1, r.1.2, None, r.2)) in
  let or_panic (r : option (Client * goroutine * nat)) :=
    match r with
    | Some r => goes r
    | None => Some None
    end in
  match g with
  | Send_AddNotification ntf tokens =>
      let '(q, e) := AddNotification (queue c) ntf tokens in
      match e with
      | Some err => goes (with_queue c q, Returned (Some err), tick)
      | None => goes (with_queue c q, Send_read_flag, tick)
      end
  | Send_read_flag =>
      if isSendign c then goes (c, Returned None, tick)
      else goes (c, Send_go, tick)
  | Send_go => Some (Some (c, Returned None, Some sendQueue_read_flag, tick))
  | sendQueue_read_flag =>
      if isSendign c then goes (c, Returned None, tick)
      else goes (c, sendQueue_IsHasToSend, tick)
  | sendQueue_IsHasToSend =>
      if negb (IsHasToSend (queue c)) then goes (c, Returned None, tick)
      else goes (c, sendQueue_set_flag, tick)
  | sendQueue_set_flag =>
      goes (with_isSendign c true,
            sendQueue_connect {| l_buf := []; l_ntf := None; l_sended := 0 |},
            tick)
  | sendQueue_connect l =>
      if isConnected (conn c) then goes (c, sendQueue_turn l, tick)
      else
        match Conn_Connect (conn c) with
        | (_, Some _) => Some None
        | (k, None) => goes (with_conn c k, sendQueue_turn l, tick)
        end
  | sendQueue_turn l =>
      match l_ntf l with
      | Some _ => or_panic (turn_rest c l tick)
      | None =>
          let '(q1, n1) := Get (clock tick) (queue c) in
          match n1 with
          | Some _ =>
              or_panic
                (turn_rest (with_queue c q1)
                   {| l_buf := l_buf l;
                      l_ntf := Some (idUnsended (queue c));
                      l_sended := l_sended l |} (S tick))
          | None =>
              if 0 <? Delay c then
                goes (with_queue c q1, sendQueue_Get_again l, S tick)
              else or_panic (turn_rest (with_queue c q1) l (S tick))
          end
      end
  | sendQueue_Get_again l =>
      let '(q2, n2) := Get (clock tick) (queue c) in
      or_panic
        (turn_rest (with_queue c q2)
           {| l_buf := l_buf l;
              l_ntf := match n2 with
                       | Some _ => Some (idUnsended (queue c))
                       | None => None
                       end;
              l_sended := l_sended l |} (S tick))
  | sendQueue_clear_flag =>
      goes (with_isSendign c false, Returned None, tick)
  | Returned _ => None
  end.

(** Goroutine number [i] takes its step. *)
Definition step (i : nat) (p : program) : stepped :=
  match goroutines p !! i with
  | None => No_step
  | Some g =>
      match step_of g (shared p) (ticks p) with
      | None => No_step
      | Some None => Panicked
      | Some (Some (c, g', started, tick)) =>
          Goes_on {| shared := c;
                     goroutines := <[i := g']> (goroutines p)
                                   ++ match started with
                                      | Some g0 => [g0]
                                      | None => []
                                      end;
                     ticks := tick |}
      end
  end.

(** A schedule names the goroutine that steps, turn after turn. *)
Fixpoint run (schedule : list nat) (p : program) : stepped :=
  match schedule with
  | [] => Goes_on p
  | i :: rest =>
      match step i p with
      | Goes_on p' => run rest p'
      | r => r
      end
  end.

End Goroutines.

(** A client as [NewClient] makes it, with a sink that takes every write. *)
Definition new_client : Client :=
  {| conn := {| wire := quiet_sink; isConnected := false; dials := [] |};
     queue := newNotificationQueue; isSendign := false; Delay := 100 |}.

(** A call of [Send] with one valid token, and three of them. *)
Definition one_send : goroutine (H := fixed100) :=
  Send_AddNotification (H := fixed100) [] [sample_token].

Definition three_sends : program (H := fixed100) :=
  {| shared := new_client; goroutines := replicate 3 one_send;
     ticks := 0 |}.

(** The locals of a loop that has just set the flag. *)
Definition loop_entered : goroutine (H := fixed100) :=
  sendQueue_connect {| l_buf := []; l_ntf := None; l_sended := 0 |}.

(** The first [Send] runs to its end and starts the loop (goroutine 3);
    the loop sets the flag, connects, takes the item, finds the queue empty
    twice and writes the buffer: it stands before clearing the flag. *)
Definition until_last_Get : list nat :=
  [0; 0; 0; 3; 3; 3; 3; 3; 3; 3]%nat.

(** The two other calls of [Send] queue their items; the loop clears the
    flag and returns; both calls read the flag and start a loop each
    (goroutines 4 and 5); both loops read the flag, then find the queue not
    empty, then set the flag. *)
Definition two_late_sends : list nat :=
  [1; 2; 3; 1; 2; 1; 2; 4; 5; 4; 5; 4; 5]%nat.


(** * The batched flush *)

(** What a flush of a single pending item does, for any package and any
    queue: the item is written and stamped, and the cursor stays where it
    was, because [sended] then equals [idUnsended] and the final test
    [q.idUnsended < sended] fails. *)
Lemma WriteTo_single_pending `{Package} (now : nat -> Time)
    (sent : list notification) (x : notification) (c : Z) (w : Writer)
    (b : byte) (bs : list byte) :
  Len x <= MaxFrameBuffer ->
  ntfWriteTo x = (b :: bs, None) ->
  faults w = [] ->
  WriteTo now {| qlist := sent ++ [x]; counter := c;
                 idUnsended := length sent |} w
  = ({| qlist := sent ++ [set_Sended x (now (length sent))]; counter := c;
        idUnsended := length sent |},
     {| wrote := wrote w ++ [b :: bs]; faults := [] |},
     Z.of_nat (length (b :: bs)), None).
Proof.
  intros Hfit Hser Hw. unfold WriteTo. cbn [qlist idUnsended counter].
  rewrite drop_app_length, take_app_length. cbn [WriteTo_loop buf List.length].
  replace (Z.of_nat 0 + Len x <=? MaxFrameBuffer) with true
    by (symmetry; apply Z.leb_le; lia).
  rewrite Hser.
  replace (length sent <? length (sent ++ [x]) - 1)%nat with false
    by (symmetry; apply Nat.ltb_ge; rewrite length_app; simpl; lia).
  cbn [app sink total sended err Buffer_WriteTo]. unfold Write. rewrite Hw.
  cbn [sink total sended err buf]. rewrite Nat.ltb_irrefl.
  reflexivity.
Qed.

(** C1, evaluated on the code: thirty pending items of 100 bytes under a
    frame limit of 2048 bytes.  One flush makes two writes, of 2000 and of
    900 bytes, 2900 bytes in all: the first frame holds the items at
    indices 0 to 19, the second those at indices 21 to 29, and the cursor
    ends at 30.  The item at index 20, which did not fit the first frame, is
    in neither. *)
Theorem WriteTo_thirty_items_drops_one :
  match WriteTo (H := fixed100) noon queue30 quiet_sink with
  | (q, w, total, err) =>
      map length (wrote w) = [2000; 900]%nat /\
      total = 2900 /\ err = None /\
      idUnsended q = 30%nat /\ length (qlist q) = 30%nat /\
      wrote w = [flat_map wire100 (take 20 (qlist queue30));
                 flat_map wire100 (drop 21 (qlist queue30))]
  end.
Proof. vm_compute. repeat split; reflexivity. Qed.

(** C2, evaluated on the code: a queue with one pending item, flushed twice
    into a sink that accepts everything.  The first flush writes the item
    and leaves the cursor at 0; the second flush writes the same item
    again. *)
Theorem WriteTo_twice_writes_item_twice :
  match WriteTo (H := fixed100) noon queue1 quiet_sink with
  | (q1, w1, _, err1) =>
      match WriteTo (H := fixed100) noon q1 w1 with
      | (q2, w2, _, err2) =>
          err1 = None /\ err2 = None /\
          idUnsended q1 = 0%nat /\ idUnsended q2 = 0%nat /\
          map ID (qlist queue1) = [1] /\
          wrote w1 = map wire100 (qlist queue1) /\
          wrote w2 = map wire100 (qlist queue1 ++ qlist queue1)
      end
  end.
Proof. vm_compute. repeat split; reflexivity. Qed.

(** C3, evaluated on the code: after the flush of the thirty items the
    cursor is at 30 and the item at index 20, below the cursor, still has
    the zero send time. *)
Theorem WriteTo_leaves_unstamped_item_below_cursor :
  match WriteTo (H := fixed100) noon queue30 quiet_sink with
  | (q, _, _, _) =>
      (20 < idUnsended q)%nat /\
      (Sended <$> qlist q !! 20%nat) = Some 0 /\
      ~ sent_are_stamped q
  end.
Proof.
  vm_compute. split; [lia | split; [reflexivity |]].
  intros Hs. eapply (Hs 20%nat); [ lia | reflexivity | reflexivity ].
Qed.

(** The loop of [WriteTo] keeps the number of items, and [sended] either
    stays as it was or becomes an index the loop went through. *)
Lemma WriteTo_loop_bounds `{Package} (now : nat -> Time) (len : nat)
    (pending : list notification) :
  forall i st l' st',
    WriteTo_loop now len i pending st = (l', st') ->
    length l' = length pending /\
    (sended st' = sended st \/
     (i <= sended st' < i + length pending)%nat).
Proof.
  induction pending as [|ntf rest IH]; intros i st l' st' Hloop;
    cbn [WriteTo_loop] in Hloop.
  - injection Hloop as <- <-. auto.
  - repeat case_match; simplify_eq; cbn [length sended];
      repeat match goal with
             | Hrec : WriteTo_loop _ _ _ _ _ = _ |- _ =>
                 apply IH in Hrec; cbn [sended] in Hrec;
                 destruct Hrec as [? ?]
             end;
      (split; [lia|lia]).
Qed.

(** [WriteTo] keeps the cursor within the list. *)
Lemma WriteTo_cursor_in_range `{Package} (now : nat -> Time)
    (q : notificationQueue) (w : Writer) :
  cursor_in_range q ->
  cursor_in_range (WriteTo now q w).1.1.1.
Proof.
  unfold cursor_in_range, WriteTo. intros Hr.
  destruct (WriteTo_loop now (length (qlist q)) (idUnsended q)
              (drop (idUnsended q) (qlist q))
              {| buf := []; sink := w; total := 0; err := None;
                 sended := 0 |}) as [pending' st] eqn:Hloop.
  apply WriteTo_loop_bounds in Hloop as [Hlen Hs]. cbn [sended] in Hs.
  rewrite length_drop in Hlen, Hs.
  destruct (idUnsended q <? sended st)%nat eqn:Hlt;
    cbn [fst qlist idUnsended];
    rewrite length_app, length_take, Hlen; [|lia].
  apply Nat.ltb_lt in Hlt. lia.
Qed.

(** * Enqueueing *)

Section Enqueue.
Context `{Package}.

Lemma add_token_invalid (template : notification) (q : notificationQueue)
    (t : string) :
  valid_token t = false -> add_token template q t = q.
Proof.
  unfold valid_token, add_token. destruct (hex.DecodeString t); [|done].
  intros ->. reflexivity.
Qed.

Lemma add_token_valid (template : notification) (q : notificationQueue)
    (t : string) :
  valid_token t = true ->
  add_token template q t =
    {| qlist := qlist q ++
         [set_ID (WithToken template (token_bytes t))
                 (wrap32 (counter q + 1))];
       counter := wrap32 (counter q + 1);
       idUnsended := idUnsended q |}.
Proof.
  unfold valid_token, add_token, token_bytes.
  destruct (hex.DecodeString t); [|done]. intros ->. reflexivity.
Qed.

(** The token loop appends [expand] and moves the counter along. *)
Lemma fold_add_token (template : notification) (tokens : list string) :
  forall q,
    let q' := fold_left (add_token template) tokens q in
    qlist q' = qlist q ++ expand template (counter q) tokens /\
    idUnsended q' = idUnsended q /\
    counter q' =
      Nat.iter (length (List.filter valid_token tokens))
               (fun c => wrap32 (c + 1)) (counter q).
Proof.
  induction tokens as [|t ts IH]; intros q; cbn [fold_left expand].
  - rewrite app_nil_r. auto.
  - destruct (valid_token t) eqn:Hv; cbn [List.filter]; rewrite Hv.
    + rewrite add_token_valid by done.
      destruct (IH {| qlist := qlist q ++
                        [set_ID (WithToken template (token_bytes t))
                                (wrap32 (counter q + 1))];
                      counter := wrap32 (counter q + 1);
                      idUnsended := idUnsended q |}) as (Hl & Hi & Hc).
      cbn [qlist counter idUnsended] in Hl, Hi, Hc.
      rewrite Hl, Hi, Hc, <- app_assoc. cbn [length].
      rewrite Nat.iter_succ_r. auto.
    + rewrite add_token_invalid by done. apply IH.
Qed.

Lemma length_expand (template : notification) (tokens : list string) :
  forall c, length (expand template c tokens)
            = length (List.filter valid_token tokens).
Proof.
  induction tokens as [|t ts IH]; intros c; cbn [expand List.filter]; [done|].
  destruct (valid_token t); cbn [length]; rewrite IH; done.
Qed.

Lemma expand_all_invalid (template : notification) (tokens : list string) :
  forallb (fun t => negb (valid_token t)) tokens = true ->
  forall c, expand template c tokens = [].
Proof.
  induction tokens as [|t ts IH]; cbn [forallb expand]; [done|].
  intros [Ht Hts]%andb_prop c. destruct (valid_token t); [done|]. auto.
Qed.

(** C6: with a template that converts, [AddNotification] returns no error
    whatever the tokens are, and appends to the queue exactly one item per
    token that decodes to 32 bytes, in the order supplied, built from that
    token's bytes; a token of another decoded length, or one that is not
    hexadecimal, adds nothing.  The number of items added is the number of
    valid tokens, and when no token is valid the queue is unchanged. *)
Theorem AddNotification_skips_invalid_tokens (q : notificationQueue)
    (ntf : Notification) (template : notification) (tokens : list string) :
  convert ntf = inl template ->
  exists q',
    AddNotification q ntf tokens = (q', None) /\
    qlist q' = qlist q ++ expand template (counter q) tokens /\
    length (qlist q') =
      (length (qlist q) + length (List.filter valid_token tokens))%nat /\
    idUnsended q' = idUnsended q /\
    (forallb (fun t => negb (valid_token t)) tokens = true -> q' = q).
Proof.
  intros Hc. unfold AddNotification. rewrite Hc.
  destruct (fold_add_token template tokens q) as (Hl & Hi & Hn).
  exists (fold_left (add_token template) tokens q).
  split; [by destruct tokens|]. split; [done|].
  split; [by rewrite Hl, length_app, length_expand|]. split; [done|].
  intros Hall. clear Hl Hi Hn. revert q.
  induction tokens as [|t ts IH]; intros q; cbn [fold_left]; [done|].
  cbn [forallb] in Hall. apply andb_prop in Hall as [Ht Hts].
  rewrite add_token_invalid by (by destruct (valid_token t)). auto.
Qed.

(** C10: with no tokens [AddNotification] returns [nil] and the queue as it
    was, for every template and every conversion function, also one that
    would reject the template: the conversion is not consulted. *)
Theorem AddNotification_no_tokens (q : notificationQueue)
    (ntf : Notification) :
  AddNotification q ntf [] = (q, None).
Proof. reflexivity. Qed.

End Enqueue.

(** * Identifiers *)

Section Identifiers.
Context `{Package}.

(** The counter after [n] increments. *)
Lemma iter_wrap32 (n : nat) (c : Z) :
  Nat.iter n (fun c => wrap32 (c + 1)) (wrap32 c) = wrap32 (c + Z.of_nat n).
Proof.
  induction n as [|n IH].
  - change (wrap32 c = wrap32 (c + 0)). by rewrite Z.add_0_r.
  - rewrite Nat.iter_succ, IH. unfold wrap32.
    rewrite Zplus_mod_idemp_l. f_equal. lia.
Qed.

(** Ids handed out by [expand]: the successors of the counter, wrapped. *)
Lemma ID_expand (template : notification) (tokens : list string) :
  forall c,
    map ID (expand template (wrap32 c) tokens) =
    map (fun k => wrap32 (c + Z.of_nat k))
        (seq 1 (length (List.filter valid_token tokens))).
Proof.
  induction tokens as [|t ts IH]; intros c; cbn [expand List.filter]; [done|].
  destruct (valid_token t); [|apply IH]. cbn [length seq map ID set_ID].
  assert (Hw : wrap32 (wrap32 c + 1) = wrap32 (c + 1)).
  { unfold wrap32. rewrite Zplus_mod_idemp_l. done. }
  rewrite Hw, IH. apply (f_equal (cons _)).
  rewrite <- (seq_shift _ 1), map_map. apply map_ext. intros k. f_equal. lia.
Qed.

Lemma map_seq_offset (f : nat -> Z) (n m : nat) :
  forall s, map f (seq (n + s) m) = map (fun k => f (n + k)%nat) (seq s m).
Proof.
  induction m as [|m IH]; intros s; cbn [seq map]; [done|].
  by rewrite <- IH, Nat.add_succ_r.
Qed.

Lemma counted_new : counted newNotificationQueue.
Proof. split; reflexivity. Qed.

Lemma counted_AddNotification (q : notificationQueue) (ntf : Notification)
    (tokens : list string) :
  counted q -> counted (fst (AddNotification q ntf tokens)).
Proof.
  intros [Hc Hids]. unfold AddNotification.
  destruct tokens as [|t ts]; [done|].
  destruct (convert ntf) as [template|e]; [|done]. cbn [fst].
  destruct (fold_add_token template (t :: ts) q) as (Hl & _ & Hn).
  set (q' := fold_left (add_token template) (t :: ts) q) in *.
  set (m := length (List.filter valid_token (t :: ts))) in *.
  assert (Hlen : length (qlist q') = (length (qlist q) + m)%nat).
  { rewrite Hl, length_app, length_expand. done. }
  split.
  - rewrite Hn, Hc, iter_wrap32, Hlen. f_equal. lia.
  - rewrite Hlen, Hl, map_app, Hids, Hc, ID_expand, seq_app, map_app.
    f_equal. fold m.
    rewrite (Nat.add_comm 1 (length (qlist q))).
    rewrite (map_seq_offset _ (length (qlist q)) m 1).
    apply map_ext. intros k. f_equal. lia.
Qed.

Lemma counted_enqueue_all (calls : list (Notification * list string)) :
  forall q, counted q -> counted (enqueue_all calls q).
Proof.
  unfold enqueue_all.
  induction calls as [|c cs IH]; intros q Hq; cbn [fold_left]; [done|].
  apply IH, counted_AddNotification, Hq.
Qed.

(** C7, as amended: for every run of enqueue calls on a fresh queue that
    leaves fewer than 2^32 items in it, the ids are 1, 2, ..., in insertion
    order; they grow strictly along the queue and no id occurs twice. *)
Theorem enqueue_ids_increasing (calls : list (Notification * list string)) :
  let q := enqueue_all calls newNotificationQueue in
  Z.of_nat (length (qlist q)) < 2 ^ 32 ->
  map ID (qlist q) = map Z.of_nat (seq 1 (length (qlist q))) /\
  ids_increasing (qlist q) /\
  NoDup (map ID (qlist q)).
Proof.
  intros q Hlt.
  destruct (counted_enqueue_all calls _ counted_new) as [_ Hids].
  fold q in Hids.
  assert (Heq : map ID (qlist q) = map Z.of_nat (seq 1 (length (qlist q)))).
  { rewrite Hids. apply map_ext_in. intros k Hk%in_seq.
    unfold wrap32. apply Z.mod_small. lia. }
  split; [done|]. split.
  - intros i j a b Hij Ha Hb.
    assert (Hi : map ID (qlist q) !! i = Some (ID a))
      by (by rewrite list_lookup_fmap, Ha).
    assert (Hj : map ID (qlist q) !! j = Some (ID b))
      by (by rewrite list_lookup_fmap, Hb).
    rewrite Heq, list_lookup_fmap in Hi, Hj.
    apply lookup_lt_Some in Ha, Hb.
    rewrite lookup_seq_lt in Hi, Hj by lia.
    cbn in Hi, Hj. injection Hi as <-. injection Hj as <-. lia.
  - rewrite Heq. apply NoDup_fmap_2; [intros ? ?; lia|].
    apply NoDup_ListNoDup, seq_NoDup.
Qed.

End Identifiers.

Lemma wrap_count_Z : Z.of_nat wrap_count = 2 ^ 32.
Proof. unfold wrap_count. apply Z2Nat.id. lia. Qed.

#[local] Opaque wrap_count.

Lemma filter_valid_replicate (n : nat) (t : string) :
  valid_token t = true ->
  length (List.filter valid_token (replicate n t)) = n.
Proof.
  intros Hv. induction n as [|n IH]; cbn [replicate List.filter]; [done|].
  rewrite Hv. cbn [length]. by rewrite IH.
Qed.

(** The queue after one enqueue call with [2^32 + 1] copies of a valid
    token: its length, and its ids. *)
Lemma wrapped_queue :
  let q := enqueue_all (H := fixed100)
             [([], replicate (S wrap_count) sample_token)]
             newNotificationQueue in
  length (qlist q) = S wrap_count /\
  map ID (qlist q) =
    map (fun k => wrap32 (Z.of_nat k)) (seq 1 (S wrap_count)).
Proof.
  intros q.
  assert (Hlen : length (qlist q) = S wrap_count).
  { destruct (fold_add_token (H := fixed100)
                {| ID := 0; Token := []; Payload := []; Sended := 0 |}
                (replicate (S wrap_count) sample_token)
                newNotificationQueue) as (Hl & _ & _).
    unfold q, enqueue_all. cbn [fold_left fst snd].
    unfold AddNotification. cbn [replicate convert fixed100 fst].
    cbn [replicate] in Hl. rewrite Hl, length_app, length_expand.
    cbn [qlist newNotificationQueue length Nat.add].
    apply (filter_valid_replicate (S wrap_count)). reflexivity. }
  split; [done|]. rewrite <- Hlen.
  apply (counted_enqueue_all (H := fixed100)), counted_new.
Qed.

(** A list whose ids are 1, 2, ... wrapped, and which is longer than 2^32,
    repeats the id 1. *)
Lemma wrapped_ids_repeat (l : list notification) (n : nat) :
  Z.of_nat n = 2 ^ 32 ->
  map ID l = map (fun k => wrap32 (Z.of_nat k)) (seq 1 (S n)) ->
  ~ ids_increasing l /\ ~ NoDup (map ID l).
Proof.
  intros HZ Hids.
  assert (H0 : map ID l !! 0%nat = Some 1).
  { rewrite Hids, list_lookup_fmap, lookup_seq_lt by lia. reflexivity. }
  assert (Hn : map ID l !! n = Some 1).
  { rewrite Hids, list_lookup_fmap, lookup_seq_lt by lia.
    cbn [fmap option_fmap option_map]. unfold wrap32.
    replace (Z.of_nat (1 + n)) with (1 + 1 * 2 ^ 32) by lia.
    rewrite Z_mod_plus_full. reflexivity. }
  assert (Hpos : (0 < n)%nat) by lia.
  split.
  - intros Hinc. rewrite list_lookup_fmap in H0, Hn.
    destruct (l !! 0%nat) as [a|] eqn:Ha; [|discriminate H0].
    destruct (l !! n) as [b|] eqn:Hb; [|discriminate Hn].
    injection H0 as H0. injection Hn as Hn.
    pose proof (Hinc _ _ _ _ Hpos Ha Hb). lia.
  - intros Hnd. pose proof (NoDup_lookup _ _ _ _ Hnd H0 Hn). lia.
Qed.

(** C7, as stated, fails on the code: after one enqueue call with
    [2^32 + 1] valid tokens on a fresh queue the first and the last item
    both have id 1, so the ids neither grow strictly nor are unique. *)
Lemma enqueue_ids_wrap_around :
  let q := enqueue_all (H := fixed100)
             [([], replicate (S wrap_count) sample_token)]
             newNotificationQueue in
  ~ ids_increasing (qlist q) /\ ~ NoDup (map ID (qlist q)).
Proof.
  exact (wrapped_ids_repeat _ wrap_count wrap_count_Z (proj2 wrapped_queue)).
Qed.

(** * Resending *)

Section Resend.
Context `{Package}.

(** The scan finds the first item with the id at index [j]. *)
Lemma resend_scan_found (q : notificationQueue) (id : Z) (exclude : bool)
    (j : nat) (x : notification) :
  qlist q !! j = Some x -> ID x = id ->
  (forall k y, (k < j)%nat -> qlist q !! k = Some y -> ID y <> id) ->
  forall n i, (i <= j)%nat -> (j < i + n)%nat ->
    resend_scan q id exclude n i =
      Some ({| qlist := drop (if exclude then S j else j) (qlist q);
               counter := counter q; idUnsended := 0 |}, true).
Proof.
  intros Hx Hid Hbefore. induction n as [|n IH]; intros i Hi Hj; [lia|].
  cbn [resend_scan]. destruct (decide (i = j)) as [->|Hne].
  - rewrite Hx. replace (ID x =? id) with true by (symmetry; lia). done.
  - assert (Hlt : (i < j)%nat) by lia.
    destruct (qlist q !! i) as [y|] eqn:Hy.
    + pose proof (Hbefore _ _ Hlt Hy).
      replace (ID y =? id) with false by (symmetry; lia).
      cbn [negb]. apply IH; lia.
    + apply lookup_ge_None in Hy. apply lookup_lt_Some in Hx. lia.
Qed.

(** The scan passes over items with other ids. *)
Lemma resend_scan_not_found (q : notificationQueue) (id : Z)
    (exclude : bool) :
  forall n i, (i + n <= length (qlist q))%nat ->
    (forall k y, (i <= k < i + n)%nat -> qlist q !! k = Some y ->
       ID y <> id) ->
    resend_scan q id exclude n i = Some (q, false).
Proof.
  induction n as [|n IH]; intros i Hlen Hne; [done|]. cbn [resend_scan].
  destruct (qlist q !! i) as [y|] eqn:Hy.
  - assert (ID y <> id) by (apply (Hne i); [lia|done]).
    replace (ID y =? id) with false by (symmetry; lia). cbn [negb].
    apply IH; [lia|]. intros k z Hk. apply Hne. lia.
  - apply lookup_ge_None in Hy. lia.
Qed.

(** C5: on a queue whose items have the ids 1 to 6, the first five of them
    sent, [ResendFromID 5 false] returns true, drops the items 1 to 4 and
    sets the cursor to 0, so that the items 5 and 6 are the next to go;
    with [exclude] set the item 5 is dropped too and the item 6 is the next.
    On any queue whose cursor is in range, an id that no sent item has makes
    the call return false and leaves the queue as it was. *)
Theorem ResendFromID_resumes (q : notificationQueue) (id : Z)
    (exclude : bool) :
  cursor_in_range q ->
  (idUnsended q = 5%nat -> map ID (qlist q) = [1; 2; 3; 4; 5; 6] ->
     ResendFromID q 5 false =
       Some ({| qlist := drop 4 (qlist q); counter := counter q;
                idUnsended := 0 |}, true) /\
     map ID (drop 4 (qlist q)) = [5; 6] /\
     ResendFromID q 5 true =
       Some ({| qlist := drop 5 (qlist q); counter := counter q;
                idUnsended := 0 |}, true) /\
     map ID (drop 5 (qlist q)) = [6]) /\
  (Forall (fun x => ID x <> id) (take (idUnsended q) (qlist q)) ->
     ResendFromID q id exclude = Some (q, false)).
Proof.
  intros Hrange. split.
  - intros Hcur Hids. destruct q as [l c u]. cbn [qlist idUnsended counter] in *.
    subst u.
    destruct l as [|a1 [|a2 [|a3 [|a4 [|a5 [|a6 [|a7 l]]]]]]]; try done.
    cbn [map] in Hids. injection Hids as H1 H2 H3 H4 H5 H6.
    unfold ResendFromID.
    split; [|split; [cbn [drop map]; congruence|split]].
    + cbn -[Z.eqb]. rewrite H1, H2, H3, H4, H5. reflexivity.
    + cbn -[Z.eqb]. rewrite H1, H2, H3, H4, H5. reflexivity.
    + cbn [drop map]. congruence.
  - intros Hall. unfold ResendFromID.
    apply resend_scan_not_found; [exact Hrange|].
    intros k y Hk Hy. rewrite Forall_lookup in Hall.
    apply (Hall k). rewrite lookup_take_lt by lia. done.
Qed.

End Resend.

(** * Eviction *)

(** Counting the items of a prefix that satisfy a test which holds exactly
    below an index. *)
Lemma filter_prefix_length {A : Type} (p : A -> bool) (l : list A) :
  forall n m, (m <= n)%nat -> (n <= length l)%nat ->
    (forall i x, (i < n)%nat -> l !! i = Some x ->
       (p x = true <-> (i < m)%nat)) ->
    length (List.filter p (take n l)) = m.
Proof.
  induction l as [|a l IH]; intros n m Hmn Hn Hp.
  - cbn [length] in Hn. assert (n = 0)%nat as -> by lia. cbn. lia.
  - destruct n as [|n]; [cbn; lia|]. cbn [take List.filter length] in *.
    pose proof (Hp 0%nat a ltac:(lia) eq_refl) as Ha.
    destruct m as [|m].
    + destruct (p a) eqn:Hpa; [pose proof (proj1 Ha eq_refl); lia|].
      apply IH; [lia|lia|]. intros i x Hi Hx.
      specialize (Hp (S i) x ltac:(lia) Hx). split; [|lia].
      intros Hpx. apply Hp in Hpx. lia.
    + replace (p a) with true by (symmetry; apply Ha; lia).
      cbn [length]. f_equal. apply IH; [lia|lia|].
      intros i x Hi Hx. specialize (Hp (S i) x ltac:(lia) Hx).
      rewrite Hp. lia.
Qed.

Section Eviction.
Context `{Package}.

(** The backward scan either finds every item below [i] fresh and leaves
    the queue alone, or stops at the last item [j] below [i] that is not
    fresh and cuts the list just behind it. *)
Lemma evict_scan_cases (q : notificationQueue) (lifeTime : Time) :
  forall i, (i <= length (qlist q))%nat ->
    (evict_scan q lifeTime i = Some q /\
     forall k x, (k < i)%nat -> qlist q !! k = Some x ->
       After (Sended x) lifeTime = true)
    \/
    (exists j x, (j < i)%nat /\ qlist q !! j = Some x /\
       After (Sended x) lifeTime = false /\
       (forall k y, (j < k < i)%nat -> qlist q !! k = Some y ->
          After (Sended y) lifeTime = true) /\
       evict_scan q lifeTime i =
         Some {| qlist := drop (S j) (qlist q); counter := counter q;
                 idUnsended := idUnsended q - S j |}).
Proof.
  induction i as [|i IH]; intros Hi.
  - left. split; [done|]. intros; lia.
  - cbn [evict_scan]. destruct (qlist q !! i) as [x|] eqn:Hx.
    2: { apply lookup_ge_None in Hx. lia. }
    destruct (After (Sended x) lifeTime) eqn:Hfresh.
    + destruct (IH ltac:(lia)) as [[Hq Hall]|(j & y & Hj & Hy & Hst & Hbetween & Hq)].
      * left. split; [done|]. intros k z Hk Hz.
        destruct (decide (k = i)) as [->|]; [congruence|].
        apply (Hall k); [lia|done].
      * right. exists j, y. repeat split; [lia|done|done| |done].
        intros k z Hk Hz. destruct (decide (k = i)) as [->|]; [congruence|].
        apply (Hbetween k); [lia|done].
    + right. exists i, x. repeat split; [lia|done|done|].
      intros; lia.
Qed.

(** C4: on a queue whose cursor is in range and whose sent region has
    non-decreasing send times, one eviction pass at time [now] removes
    exactly the sent items whose send time is at or before
    [now - CacheLifeTime]: they are the first [k] items, where [k] is their
    number; the list loses these [k] items, the cursor goes down by [k], and
    when no sent item is stale the queue is returned as it was. *)
Theorem evict_removes_stale_prefix (now : Time) (q : notificationQueue) :
  cursor_in_range q -> sent_sorted q ->
  let k := length (List.filter (stale now)
                     (take (idUnsended q) (qlist q))) in
  (forall i x, (i < idUnsended q)%nat -> qlist q !! i = Some x ->
     (stale now x = true <-> (i < k)%nat)) /\
  evict now q =
    Some {| qlist := drop k (qlist q); counter := counter q;
            idUnsended := idUnsended q - k |} /\
  (k = 0%nat -> evict now q = Some q).
Proof.
  intros Hrange Hsorted k. unfold evict.
  assert (Hstale : forall x,
            stale now x = negb (After (Sended x) (now - CacheLifeTime))).
  { intros x. unfold stale, After. rewrite Z.ltb_antisym, negb_involutive.
    done. }
  destruct (evict_scan_cases q (now - CacheLifeTime) (idUnsended q) Hrange)
    as [[Hq Hall]|(j & y & Hj & Hy & Hst & Hbetween & Hq)].
  - assert (Hiff : forall i x, (i < idUnsended q)%nat ->
              qlist q !! i = Some x ->
              (stale now x = true <-> (i < 0)%nat)).
    { intros i x Hi Hx. rewrite Hstale, (Hall i x Hi Hx). cbn. split; [done|lia]. }
    assert (Hk : k = 0%nat)
      by (apply filter_prefix_length; [lia|exact Hrange|exact Hiff]).
    rewrite Hk, Hq. split; [exact Hiff|]. split; [|done].
    destruct q as [l c u]. cbn [qlist counter idUnsended drop].
    by rewrite Nat.sub_0_r.
  - assert (Hiff : forall i x, (i < idUnsended q)%nat ->
              qlist q !! i = Some x ->
              (stale now x = true <-> (i < S j)%nat)).
    { intros i x Hi Hx. rewrite Hstale. split.
      - intros Hs. destruct (decide (i < S j)%nat) as [|Hge]; [done|].
        rewrite (Hbetween i x ltac:(lia) Hx) in Hs. done.
      - intros Hlt.
        pose proof (Hsorted i j x y ltac:(lia) Hj Hx Hy) as Hle.
        unfold After in *. apply Z.ltb_ge in Hst.
        apply negb_true_iff, Z.ltb_ge. lia. }
    assert (Hk : k = S j)
      by (apply filter_prefix_length; [lia|exact Hrange|exact Hiff]).
    rewrite Hk, Hq. split; [exact Hiff|]. split; [done|]. lia.
Qed.

End Eviction.

(** * The feedback reader *)

Module feedback_facts.
Import feedback.

(** The byte cut out of a number reads back as that byte. *)
Lemma u8_low_byte (z k : Z) :
  u8 (match Byte.of_N (Z.to_N (Z.land (Z.shiftr z k) 255)) with
      | Some b => b
      | None => x00
      end) = Z.land (Z.shiftr z k) 255.
Proof.
  set (n := Z.land (Z.shiftr z k) 255).
  assert (Hn : 0 <= n < 256).
  { unfold n. change 255 with (Z.ones 8). rewrite Z.land_ones by lia.
    apply Z.mod_pos_bound. lia. }
  destruct (Byte.of_N (Z.to_N n)) as [b|] eqn:Hb.
  - apply Byte.to_of_N in Hb. unfold u8. rewrite Hb. lia.
  - apply Byte.of_N_None_iff in Hb. lia.
Qed.

Lemma length_put_header (r : FeedbackResponse) : length (put_header r) = 6%nat.
Proof. reflexivity. Qed.

(** The header decodes to the timestamp and to the token length. *)
Lemma Uint32_put_header (r : FeedbackResponse) :
  0 <= timestamp r < 2 ^ 32 ->
  Uint32 (take 4 (put_header r)) = timestamp r.
Proof.
  intros Hr. unfold Uint32, put_header. cbn [take nth].
  rewrite !u8_low_byte.
  rewrite <- (Z.mod_small (timestamp r) (2 ^ 32)) at 5 by lia.
  rewrite <- Z.land_ones by lia. change 255 with (Z.ones 8).
  Z.bitblast.
Qed.

Lemma Uint16_put_header (r : FeedbackResponse) :
  Z.of_nat (length (Token r)) < 2 ^ 16 ->
  Uint16 (take 2 (drop 4 (put_header r))) = Z.of_nat (length (Token r)).
Proof.
  intros Hr. unfold Uint16, put_header. cbn [take drop nth].
  rewrite !u8_low_byte. set (n := Z.of_nat (length (Token r))) in *.
  rewrite <- (Z.mod_small n (2 ^ 16)) at 3 by lia.
  rewrite <- Z.land_ones by lia. change 255 with (Z.ones 8).
  Z.bitblast.
Qed.

Lemma length_stream_of (rs : list FeedbackResponse) :
  length (stream_of rs) = (2 * length rs)%nat.
Proof.
  induction rs as [|r rs IH]; [done|].
  change (stream_of (r :: rs))
    with ((put_header r, @None error) :: (Token r, None) :: stream_of rs).
  cbn [length]. lia.
Qed.

(** A [Read] that delivers as many bytes as the buffer holds replaces the
    buffer. *)
Lemma Conn_Read_full (data p : list byte) (rest : list (list byte * option error))
    (c : bool) (e : option error) :
  length data = length p ->
  Conn_Read {| reads := (data, e) :: rest; closed := c |} p
  = ({| reads := rest; closed := c |}, data, e).
Proof.
  intros Hlen. unfold Conn_Read. cbn [reads closed].
  rewrite <- Hlen, take_ge, drop_ge, app_nil_r by lia. reflexivity.
Qed.

(** One turn of the loop reads one record of a well-formed stream. *)
Lemma Feedback_loop_record (fuel : nat) (r : FeedbackResponse)
    (rest : list (list byte * option error)) (c : bool)
    (header : list byte) (result : list FeedbackResponse) :
  fits_wire r -> length header = 6%nat ->
  Feedback_loop (S fuel)
    {| reads := (put_header r, None) :: (Token r, None) :: rest;
       closed := c |} header result
  = Feedback_loop fuel {| reads := rest; closed := c |} (put_header r)
      (result ++ [r]).
Proof.
  intros [Hts Hlen] Hh. cbn [Feedback_loop].
  rewrite Conn_Read_full by (by rewrite length_put_header).
  rewrite Uint16_put_header, Nat2Z.id by done.
  rewrite Conn_Read_full by (by rewrite length_replicate).
  rewrite Uint32_put_header by done. by destruct r.
Qed.

(** The loop over a well-formed stream collects its records. *)
Lemma Feedback_loop_stream (rs : list FeedbackResponse)
    (tail : list (list byte * option error)) (c : bool) :
  Forall fits_wire rs ->
  forall fuel header result, length header = 6%nat ->
    exists header', length header' = 6%nat /\
      Feedback_loop (length rs + fuel)
        {| reads := stream_of rs ++ tail; closed := c |} header result
      = Feedback_loop fuel {| reads := tail; closed := c |} header'
          (result ++ rs).
Proof.
  induction 1 as [|r rs Hr Hrs IH]; intros fuel header result Hh.
  - exists header. by rewrite app_nil_r.
  - cbn [length Nat.add stream_of flat_map app].
    change (flat_map _ rs) with (stream_of rs).
    rewrite Feedback_loop_record by done.
    destruct (IH fuel (put_header r) (result ++ [r]) eq_refl)
      as (header' & Hh' & Heq).
    exists header'. split; [done|]. rewrite Heq, <- app_assoc. done.
Qed.

(** At the end of the stream the loop returns what it has, and the error
    unless it is [io.EOF]. *)
Lemma Feedback_loop_stop (tail : list (list byte * option error))
    (e : error) (c : bool) (fuel : nat) (header : list byte)
    (result : list FeedbackResponse) :
  stops_with tail e ->
  exists conn', closed conn' = c /\
    Feedback_loop (S fuel) {| reads := tail; closed := c |} header result
    = Some (conn', result, drop_EOF e).
Proof.
  intros Hstop. cbn [Feedback_loop].
  destruct Hstop as [|d e rest|h|h d e rest]; unfold Conn_Read;
    cbn [reads closed]; eexists; (split; [|reflexivity]); reflexivity.
Qed.

(** The fuel [Feedback] gives its loop is enough: the loop returns. *)
Lemma Feedback_loop_returns (fuel : nat) :
  forall conn header result,
    (length (reads conn) < 2 * fuel)%nat ->
    exists conn' rs err,
      Feedback_loop fuel conn header result = Some (conn', rs, err) /\
      closed conn' = closed conn.
Proof.
  induction fuel as [|fuel IH]; intros [script c] header result Hlen;
    cbn [reads closed] in *; [lia|].
  cbn [Feedback_loop]. unfold Conn_Read at 1. cbn [reads closed].
  destruct script as [|[d1 [e1|]] script]; [by eauto|by eauto|].
  unfold Conn_Read. cbn [reads closed].
  destruct script as [|[d2 [e2|]] script]; [by eauto|by eauto|].
  cbn [length] in Hlen.
  edestruct IH as (conn'' & rs' & err' & Heq & Hc);
    [|exists conn'', rs', err'; split; [exact Heq|exact Hc]].
  cbn [reads]. lia.
Qed.

(** What [Feedback] does get right.  On a stream of records, each a 6-byte
    header (the timestamp in bytes 0 to 4 and the token length in bytes 4 to
    6, both big-endian) and its token bytes, where every header and every
    token arrives whole in a [Read] of its own: it returns one record per
    group, in stream order.  When the stream then ends gracefully the error
    is nil; when a [Read] fails with another error the records read so far
    come back with that error.  Whenever a connection was opened,
    [Feedback] returns and has closed it; when [Dial] fails its error is
    returned and there is no connection to close. *)
Theorem Feedback_reads_records (config : Config) :
  let addr :=
    if Sandbox config then feedbackServerSandbox else feedbackServer in
  (forall err, Dial config addr = inr err ->
     Feedback config = Some ([], Some err, None)) /\
  (forall conn, Dial config addr = inl conn ->
     (exists rs err conn',
        Feedback config = Some (rs, err, Some conn') /\
        closed conn' = true) /\
     (forall rs tail e,
        Forall fits_wire rs -> stops_with tail e ->
        reads conn = stream_of rs ++ tail ->
        exists conn',
          Feedback config
          = Some (rs,
                  match e with
                  | EOF => None
                  | Failure code => Some (Failure code)
                  end, Some conn') /\
          closed conn' = true)).
Proof.
  intros addr. split.
  - intros err Hd. unfold Feedback. fold addr. by rewrite Hd.
  - intros conn Hd. unfold Feedback. fold addr. rewrite Hd. split.
    + destruct (Feedback_loop_returns (S (length (reads conn))) conn
                  (replicate 6 x00) [] ltac:(lia))
        as (conn' & rs & err & -> & _).
      by exists rs, err, (Conn_Close conn').
    + intros rs tail e Hrs Hstop Hreads. destruct conn as [script c].
      cbn [reads] in Hreads. subst script. cbn [reads].
      assert (Hfuel : S (length (stream_of rs ++ tail))
                      = (length rs + S (length rs + length tail))%nat).
      { rewrite length_app, length_stream_of. lia. }
      rewrite Hfuel.
      destruct (Feedback_loop_stream rs tail c Hrs
                  (S (length rs + length tail)) (replicate 6 x00) [] eq_refl)
        as (header' & _ & ->).
      destruct (Feedback_loop_stop tail e c (length rs + length tail)
                  header' ([] ++ rs) Hstop) as (conn' & _ & ->).
      exists (Conn_Close conn'). by destruct e.
Qed.

(** The feedback scenario: two records, then a graceful end of stream. *)
Lemma Feedback_reads_records_witness :
  Forall fits_wire two_records /\ stops_with [] EOF /\
  exists conn',
    Feedback two_record_config = Some (two_records, None, Some conn') /\
    closed conn' = true.
Proof.
  assert (Hfit : Forall fits_wire two_records).
  { repeat constructor; cbn; lia. }
  split; [exact Hfit|]. split; [constructor|].
  apply (proj2 (proj2 (Feedback_reads_records two_record_config)
                  {| reads := stream_of two_records; closed := false |}
                  eq_refl) two_records [] EOF).
  - exact Hfit.
  - constructor.
  - cbn [reads]. by rewrite app_nil_r.
Defined.

(** C8: the stream of the feedback scenario, two records and a graceful
    end, read while it arrives in pieces: the last two bytes of the first
    token come in a [Read] of their own, and the reads that follow return
    what is there.  The bytes are those of the scenario, but [Feedback]
    never looks at the count that [Read] returns: it takes the 30 bytes for
    the whole token, the next two bytes for a header, and returns two
    records that are not those of the stream, with a nil error.  And when
    the last token arrives together with [io.EOF], as a [Read] may deliver
    it, the record is dropped. *)
Theorem Feedback_misreads_fragmented_stream :
  concat (fst <$> fragmented_stream)
  = concat (fst <$> stream_of two_records) /\
  Feedback fragmented_config
  = Some ([ {| timestamp := 1000000000;
               Token := replicate 30 xaa ++ [x00; x00] |};
            {| timestamp := 2863319552;
               Token := [x3b; x9a; xca; x64; x00; x20]
                        ++ replicate 26 xbb |} ],
          None, Some {| reads := []; closed := true |}) /\
  Feedback token_with_EOF_config
  = Some ([], None, Some {| reads := []; closed := true |}).
Proof. split; [|split]; vm_compute; reflexivity. Qed.

End feedback_facts.

(** * The cursor stays in range *)

(** Each operation of the queue, run on its own, keeps
    [0 <= idUnsended <= len(list)]; for [WriteTo] this is
    [WriteTo_cursor_in_range] above. *)

Lemma AddNotification_cursor_in_range `{Package} (q : notificationQueue)
    (ntf : Notification) (tokens : list string) :
  cursor_in_range q -> cursor_in_range (AddNotification q ntf tokens).1.
Proof.
  unfold cursor_in_range, AddNotification. intros Hr.
  destruct tokens as [|t ts]; [done|].
  destruct (convert ntf) as [template|e]; [|done]. cbn [fst].
  destruct (fold_add_token template (t :: ts) q) as (-> & -> & _).
  rewrite length_app. lia.
Qed.

Lemma Put_cursor_in_range (q : notificationQueue)
    (mem : nat -> notification) (l : list nat) :
  cursor_in_range q -> cursor_in_range (Put q mem l).1.
Proof.
  unfold cursor_in_range, Put. intros Hr.
  destruct (put_ids (counter q) mem l) as [c mem'].
  cbn [fst qlist idUnsended]. rewrite length_app. lia.
Qed.

Lemma Get_cursor_in_range (now : Time) (q : notificationQueue) :
  cursor_in_range q -> cursor_in_range (Get now q).1.
Proof.
  unfold cursor_in_range, Get, IsHasToSend. intros Hr.
  destruct (idUnsended q <? length (qlist q))%nat eqn:Hlt; [|done].
  cbn [negb]. apply Nat.ltb_lt in Hlt.
  destruct (qlist q !! idUnsended q); [|done].
  cbn [fst qlist idUnsended]. rewrite length_insert. lia.
Qed.

Lemma ResendFromID_cursor_in_range (q q' : notificationQueue) (id : Z)
    (exclude found : bool) :
  cursor_in_range q -> ResendFromID q id exclude = Some (q', found) ->
  cursor_in_range q'.
Proof.
  unfold ResendFromID. intros Hr. generalize 0%nat.
  induction (idUnsended q) as [|n IH]; intros i; cbn [resend_scan].
  - by intros [= <- <-].
  - destruct (qlist q !! i) as [x|]; [|done].
    destruct (negb (ID x =? id)); [apply IH|].
    intros [= <- <-]. unfold cursor_in_range. cbn [idUnsended]. lia.
Qed.

Lemma evict_cursor_in_range `{Package} (now : Time)
    (q q' : notificationQueue) :
  cursor_in_range q -> evict now q = Some q' -> cursor_in_range q'.
Proof.
  unfold evict. intros Hr Hq.
  destruct (evict_scan_cases q (now - CacheLifeTime) (idUnsended q) Hr)
    as [[Heq _]|(j & x & Hj & _ & _ & _ & Heq)];
    rewrite Heq in Hq; injection Hq as <-; [done|].
  unfold cursor_in_range in *. cbn [qlist idUnsended].
  rewrite length_drop. lia.
Qed.

(** * The theorems at sample inputs *)

(** Token filtering on tokens of 31 and 33 bytes, a non-hexadecimal one, one
    of odd length and a valid one: one item is queued. *)
Lemma AddNotification_skips_invalid_tokens_witness :
  @convert fixed100 [] =
    inl {| ID := 0; Token := []; Payload := []; Sended := 0 |} /\
  exists q',
    AddNotification (H := fixed100) newNotificationQueue [] mixed_tokens
      = (q', None) /\
    qlist q' = qlist newNotificationQueue ++
      expand (H := fixed100)
        {| ID := 0; Token := []; Payload := []; Sended := 0 |}
        (counter newNotificationQueue) mixed_tokens /\
    length (qlist q') =
      (length (qlist newNotificationQueue)
       + length (List.filter valid_token mixed_tokens))%nat /\
    idUnsended q' = idUnsended newNotificationQueue /\
    (forallb (fun t => negb (valid_token t)) mixed_tokens = true ->
     q' = newNotificationQueue).
Proof.
  split; [reflexivity|].
  apply (AddNotification_skips_invalid_tokens (H := fixed100)
           newNotificationQueue [] _ mixed_tokens eq_refl).
Defined.

(** Ids after two enqueue calls with three valid tokens. *)
Lemma enqueue_ids_increasing_witness :
  Z.of_nat (length (qlist (enqueue_all (H := fixed100)
                             three_tokens_in_two_calls
                             newNotificationQueue))) < 2 ^ 32 /\
  ids_increasing
    (qlist (enqueue_all (H := fixed100) three_tokens_in_two_calls
              newNotificationQueue)).
Proof.
  assert (Hlt : Z.of_nat (length (qlist (enqueue_all (H := fixed100)
                  three_tokens_in_two_calls newNotificationQueue)))
                < 2 ^ 32) by (vm_compute; reflexivity).
  split; [exact Hlt|].
  exact (proj1 (proj2 (enqueue_ids_increasing (H := fixed100)
                         three_tokens_in_two_calls Hlt))).
Defined.

(** Resending on the queue with the ids 1 to 6, five of them sent. *)
Lemma ResendFromID_resumes_witness :
  cursor_in_range queue6 /\
  idUnsended queue6 = 5%nat /\
  map ID (qlist queue6) = [1; 2; 3; 4; 5; 6] /\
  Forall (fun x => ID x <> 7) (take (idUnsended queue6) (qlist queue6)) /\
  ResendFromID queue6 5 false =
    Some ({| qlist := drop 4 (qlist queue6); counter := counter queue6;
             idUnsended := 0 |}, true) /\
  ResendFromID queue6 7 false = Some (queue6, false).
Proof.
  assert (Hr : cursor_in_range queue6) by (vm_compute; lia).
  assert (Hall : Forall (fun x => ID x <> 7)
                   (take (idUnsended queue6) (qlist queue6)))
    by (vm_compute; repeat constructor; discriminate).
  destruct (ResendFromID_resumes queue6 7 false Hr)
    as [Hfound Hmissing].
  split; [exact Hr|]. split; [reflexivity|]. split; [reflexivity|].
  split; [exact Hall|]. split.
  - exact (proj1 (Hfound eq_refl eq_refl)).
  - exact (Hmissing Hall).
Defined.

(** Eviction at time 900 with a lifetime of 600 on the queue whose sent
    items were stamped 100 to 500: the three items stamped 300 or earlier
    go. *)
Lemma evict_removes_stale_prefix_witness :
  cursor_in_range queue6 /\ sent_sorted queue6 /\
  evict (H := fixed100) 900 queue6 =
    Some {| qlist := drop 3 (qlist queue6); counter := counter queue6;
            idUnsended := idUnsended queue6 - 3 |}.
Proof.
  assert (Hr : cursor_in_range queue6) by (vm_compute; lia).
  assert (Hs : sent_sorted queue6).
  { intros i j x y Hij Hj Hx Hy. vm_compute in Hj.
    destruct j as [|[|[|[|[|j]]]]]; [..|lia];
      (destruct i as [|[|[|[|[|i]]]]]; [..|lia]); try lia;
      vm_compute in Hx, Hy; injection Hx as <-; injection Hy as <-;
      cbn; lia. }
  split; [exact Hr|]. split; [exact Hs|].
  exact (proj1 (proj2 (evict_removes_stale_prefix (H := fixed100) 900
                         queue6 Hr Hs))).
Defined.

(** * Hexadecimal tokens *)




(** Decoding the two digits of a byte gives the byte back. *)
Lemma hex_byte_round_trip (b : byte) :
  hex.Decode (hex_Encode [b]) = Some [b].
Proof. destruct b; vm_compute; reflexivity. Qed.

(** [hex.DecodeString] undoes [hex.EncodeToString]. *)
Theorem hex_Decode_Encode (bs : list byte) :
  hex.DecodeString (hex_EncodeToString bs) = Some bs.
Proof.
  unfold hex.DecodeString, hex_EncodeToString.
  rewrite list_ascii_of_string_of_list_ascii.
  induction bs as [|b bs IH]; [done|].
  pose proof (hex_byte_round_trip b) as Hb.
  unfold hex_Encode in *. cbn [flat_map app hex.Decode] in *.
  destruct (hex.fromHexChar _); [|done].
  destruct (hex.fromHexChar _); [|done].
  rewrite IH. injection Hb as ->. reflexivity.
Qed.

(** X2: the string form of a feedback record is a valid token exactly when
    the record's token has 32 bytes, and it then decodes to that token: what
    the feedback service reports can be handed to [AddNotification]. *)
Theorem feedback_token_is_valid (fr : feedback.FeedbackResponse) :
  (valid_token (FeedbackResponse_String fr) = true <->
   length (feedback.Token fr) = 32%nat) /\
  token_bytes (FeedbackResponse_String fr) = feedback.Token fr.
Proof.
  unfold valid_token, token_bytes, FeedbackResponse_String.
  rewrite hex_Decode_Encode. split; [apply Nat.eqb_eq|done].
Qed.

(** * Enqueueing: errors and pending items *)

(** X3: [AddNotification] returns an error exactly when there is at least
    one token and the template does not convert; the error is the one of the
    conversion, and the queue is then left as it was. *)
Theorem AddNotification_all_or_nothing `{Package} (q : notificationQueue)
    (ntf : Notification) (tokens : list string) (e : error) :
  ((AddNotification q ntf tokens).2 = Some e <->
   tokens <> [] /\ convert ntf = inr e) /\
  ((AddNotification q ntf tokens).2 = Some e ->
   (AddNotification q ntf tokens).1 = q).
Proof.
  unfold AddNotification. destruct tokens as [|t ts].
  - cbn. split; [split; [done|by intros [? _]]|done].
  - destruct (convert ntf) as [template|e'] eqn:Hc; cbn [fst snd].
    + split; [split; [done|by intros [_ ?]]|done].
    + split; [|done]. split.
      * intros [= ->]. done.
      * intros [_ [= ->]]. done.
Qed.

Lemma AddNotification_all_or_nothing_witness :
  (AddNotification (H := strict100) queue6 [] [sample_token]).2
    = Some (Failure 1) /\
  (AddNotification (H := strict100) queue6 [] [sample_token]).1 = queue6.
Proof.
  destruct (AddNotification_all_or_nothing (H := strict100) queue6 []
              [sample_token] (Failure 1)) as [Hiff Hsame].
  assert (He : (AddNotification (H := strict100) queue6 []
                  [sample_token]).2 = Some (Failure 1))
    by (apply Hiff; split; [discriminate|reflexivity]).
  split; [exact He|exact (Hsame He)].
Defined.

(** X4: after [AddNotification] has taken at least one valid token, on a
    queue whose cursor is in range, [IsHasToSend] is true. *)
Theorem AddNotification_then_IsHasToSend `{Package} (q : notificationQueue)
    (ntf : Notification) (template : notification) (tokens : list string) :
  cursor_in_range q -> convert ntf = inl template ->
  existsb valid_token tokens = true ->
  IsHasToSend (AddNotification q ntf tokens).1 = true.
Proof.
  intros Hr Hc Hex. unfold AddNotification.
  destruct tokens as [|t ts]; [done|]. rewrite Hc. cbn [fst].
  destruct (fold_add_token template (t :: ts) q) as (Hl & Hi & _).
  unfold IsHasToSend. rewrite Hl, Hi, length_app, length_expand.
  apply Nat.ltb_lt. unfold cursor_in_range in Hr.
  enough (0 < length (List.filter valid_token (t :: ts)))%nat by lia.
  clear -Hex. induction (t :: ts) as [|a l IH]; [done|].
  cbn [existsb List.filter] in *. destruct (valid_token a); cbn [length]; [lia|].
  apply IH, Hex.
Qed.

Lemma AddNotification_then_IsHasToSend_witness :
  cursor_in_range queue6 /\
  existsb valid_token mixed_tokens = true /\
  IsHasToSend (AddNotification (H := fixed100) queue6 [] mixed_tokens).1
    = true.
Proof.
  assert (Hr : cursor_in_range queue6) by (vm_compute; lia).
  split; [exact Hr|]. split; [reflexivity|].
  exact (AddNotification_then_IsHasToSend (H := fixed100) queue6 [] _
           mixed_tokens Hr eq_refl eq_refl).
Defined.

(** * Fetching with Get *)


(** [Get] with nothing pending returns nil and changes nothing. *)
Lemma Get_nothing_pending (t : Time) (q : notificationQueue) :
  (length (qlist q) <= idUnsended q)%nat -> Get t q = (q, None).
Proof.
  intros Hle. unfold Get, IsHasToSend.
  by replace (idUnsended q <? length (qlist q))%nat with false
    by (symmetry; apply Nat.ltb_ge; lia).
Qed.





(** The two outcomes of [Get]. *)
Lemma Get_cases (now : Time) (q : notificationQueue) :
  ((length (qlist q) <= idUnsended q)%nat /\ Get now q = (q, None)) \/
  (exists x, qlist q !! idUnsended q = Some x /\
     Get now q =
       ({| qlist := <[idUnsended q := set_Sended x now]> (qlist q);
           counter := counter q; idUnsended := S (idUnsended q) |},
        Some (set_Sended x now))).
Proof.
  destruct (le_lt_dec (length (qlist q)) (idUnsended q)) as [Hle|Hlt].
  - left. split; [done|]. by apply Get_nothing_pending.
  - right. destruct (lookup_lt_is_Some_2 _ _ Hlt) as [x Hx]. exists x.
    split; [done|]. unfold Get, IsHasToSend.
    replace (idUnsended q <? length (qlist q))%nat with true
      by (symmetry; apply Nat.ltb_lt; lia).
    cbn [negb]. by rewrite Hx.
Qed.



(** * Appending with Put *)











(** A pointer given twice: the object gets one id, and both new entries of
    the list carry it. *)
Example Put_same_pointer_twice :
  map ID (qlist (Put queue6 three_objects [0; 0]%nat).1)
  = [1; 2; 3; 4; 5; 6; 7; 7] /\
  counter (Put queue6 three_objects [0; 0]%nat).1 = 7 /\
  map ID (qlist (Put queue6 three_objects [0; 1; 0; 2]%nat).1)
  = [1; 2; 3; 4; 5; 6; 7; 8; 7; 7].
Proof. vm_compute. done. Qed.

(** * Resending, in general *)

(** When the scan answers true it has stopped at an item with the id. *)
Lemma resend_scan_true (q q' : notificationQueue) (id : Z) (exclude : bool) :
  forall n i, resend_scan q id exclude n i = Some (q', true) ->
    exists j x, (i <= j < i + n)%nat /\ qlist q !! j = Some x /\
      ID x = id /\
      (forall k y, (i <= k < j)%nat -> qlist q !! k = Some y -> ID y <> id) /\
      q' = {| qlist := drop (if exclude then S j else j) (qlist q);
              counter := counter q; idUnsended := 0 |}.
Proof.
  induction n as [|n IH]; intros i; cbn [resend_scan]; [done|].
  destruct (qlist q !! i) as [x|] eqn:Hx; [|done].
  destruct (ID x =? id) eqn:Hid; cbn [negb].
  - intros [= <-]. exists i, x. repeat split; [lia|lia|done|lia|].
    intros; lia.
  - intros Hrec. destruct (IH _ Hrec) as (j & y & Hj & Hy & Hyid & Hb & ->).
    exists j, y. repeat split; [lia|lia|done|done|].
    intros k z Hk Hz. destruct (decide (k = i)) as [->|Hne].
    + rewrite Hx in Hz. injection Hz as <-. lia.
    + apply (Hb k); [lia|done].
Qed.

(** The first sent item with a given id, if there is one. *)
Lemma first_with_id (l : list notification) (id : Z) :
  forall n, (n <= length l)%nat ->
    (forall k y, (k < n)%nat -> l !! k = Some y -> ID y <> id) \/
    (exists j x, (j < n)%nat /\ l !! j = Some x /\ ID x = id /\
       forall k y, (k < j)%nat -> l !! k = Some y -> ID y <> id).
Proof.
  induction n as [|n IH]; intros Hn; [left; intros; lia|].
  destruct (IH ltac:(lia)) as [Hnone|(j & x & Hj & Hx & Hid & Hb)].
  - destruct (lookup_lt_is_Some_2 l n ltac:(lia)) as [x Hx].
    destruct (decide (ID x = id)) as [Hid|Hid].
    + right. exists n, x. repeat split; [lia|done|done|].
      intros k y Hk. by apply Hnone.
    + left. intros k y Hk Hy. destruct (decide (k = n)) as [->|].
      * congruence.
      * apply (Hnone k); [lia|done].
  - right. exists j, x. repeat split; [lia|done|done|done].
Qed.

(** X8: on a queue whose cursor is in range [ResendFromID] always returns;
    it answers true exactly when some sent item has the id, and then it cuts
    the list at the first such item (behind it with [exclude]), sets the
    cursor to 0 and keeps the counter; it answers false otherwise and then
    changes nothing. *)
Theorem ResendFromID_first_match (q : notificationQueue) (id : Z)
    (exclude : bool) :
  cursor_in_range q ->
  exists q' found,
    ResendFromID q id exclude = Some (q', found) /\
    (found = true <->
     Exists (fun x => ID x = id) (take (idUnsended q) (qlist q))) /\
    (found = false -> q' = q) /\
    (found = true ->
     exists j x, (j < idUnsended q)%nat /\ qlist q !! j = Some x /\
       ID x = id /\
       (forall k y, (k < j)%nat -> qlist q !! k = Some y -> ID y <> id) /\
       q' = {| qlist := drop (if exclude then S j else j) (qlist q);
               counter := counter q; idUnsended := 0 |}).
Proof.
  intros Hr. unfold ResendFromID.
  destruct (first_with_id (qlist q) id (idUnsended q) Hr)
    as [Hnone|(j & x & Hj & Hx & Hid & Hb)].
  - exists q, false. split; [|split; [|split; [done|done]]].
    + apply resend_scan_not_found; [exact Hr|].
      intros k y Hk. apply Hnone. lia.
    + split; [done|]. intros (y & Hy & Hyid)%Exists_exists.
      apply list_elem_of_lookup in Hy as [k Hk].
      apply lookup_take_Some in Hk as [Hk Hlt].
      by destruct (Hnone k y Hlt Hk).
  - exists {| qlist := drop (if exclude then S j else j) (qlist q);
              counter := counter q; idUnsended := 0 |}, true.
    split; [|split; [|split; [done|]]].
    + apply (resend_scan_found q id exclude j x Hx Hid Hb); lia.
    + split; [|done]. intros _. apply Exists_exists. exists x.
      split; [|done].
      apply list_elem_of_lookup. exists j. by rewrite lookup_take_lt.
    + intros _. exists j, x. repeat split; done.
Qed.

Lemma ResendFromID_first_match_witness :
  cursor_in_range queue6 /\
  exists q' found,
    ResendFromID queue6 3 true = Some (q', found) /\
    (found = true <->
     Exists (fun x => ID x = 3)
       (take (idUnsended queue6) (qlist queue6))) /\
    (found = false -> q' = queue6) /\
    (found = true ->
     exists j x, (j < idUnsended queue6)%nat /\
       qlist queue6 !! j = Some x /\ ID x = 3 /\
       (forall k y, (k < j)%nat -> qlist queue6 !! k = Some y ->
          ID y <> 3) /\
       q' = {| qlist := drop (S j) (qlist queue6);
               counter := counter queue6; idUnsended := 0 |}).
Proof.
  assert (Hr : cursor_in_range queue6) by (vm_compute; lia).
  split; [exact Hr|].
  exact (ResendFromID_first_match queue6 3 true Hr).
Defined.

(** X9: after [ResendFromID] has found the id, without [exclude], the next
    [Get] returns the item with that id, stamped anew. *)
Theorem ResendFromID_then_Get (q q' : notificationQueue) (id : Z)
    (now : Time) :
  ResendFromID q id false = Some (q', true) ->
  exists q'' x,
    Get now q' = (q'', Some x) /\ ID x = id /\ Sended x = now /\
    idUnsended q'' = 1%nat.
Proof.
  intros Hres. apply resend_scan_true in Hres
    as (j & x & _ & Hx & Hid & _ & ->).
  destruct (Get_cases now
              {| qlist := drop j (qlist q); counter := counter q;
                 idUnsended := 0 |}) as [[Hle _]|(y & Hy & ->)].
  - cbn [qlist idUnsended] in Hle. rewrite length_drop in Hle.
    apply lookup_lt_Some in Hx. lia.
  - cbn [qlist idUnsended] in Hy. rewrite lookup_drop, Nat.add_0_r in Hy.
    rewrite Hx in Hy. injection Hy as <-.
    eexists _, _. split; [done|]. cbn. done.
Qed.

Lemma ResendFromID_then_Get_witness :
  ResendFromID queue6 5 false =
    Some ({| qlist := drop 4 (qlist queue6); counter := counter queue6;
             idUnsended := 0 |}, true) /\
  exists q'' x,
    Get 700 {| qlist := drop 4 (qlist queue6); counter := counter queue6;
               idUnsended := 0 |} = (q'', Some x) /\
    ID x = 5 /\ Sended x = 700 /\ idUnsended q'' = 1%nat.
Proof.
  assert (Hres : ResendFromID queue6 5 false =
    Some ({| qlist := drop 4 (qlist queue6); counter := counter queue6;
             idUnsended := 0 |}, true)) by reflexivity.
  split; [exact Hres|].
  exact (ResendFromID_then_Get queue6 _ 5 700 Hres).
Defined.

(** * Eviction, in general *)

(** X10: on a queue whose cursor is in range, sorted or not, an eviction
    pass always returns; it drops a prefix of the sent region and lowers the
    cursor by its length, so that no pending item is touched, and no sent
    item that stays is stale. *)
Theorem evict_leaves_no_stale_item `{Package} (now : Time)
    (q : notificationQueue) :
  cursor_in_range q ->
  exists q' k,
    evict now q = Some q' /\ (k <= idUnsended q)%nat /\
    qlist q' = drop k (qlist q) /\
    idUnsended q' = (idUnsended q - k)%nat /\
    counter q' = counter q /\
    drop (idUnsended q') (qlist q') = drop (idUnsended q) (qlist q) /\
    forall i x, (i < idUnsended q')%nat -> qlist q' !! i = Some x ->
      stale now x = false.
Proof.
  intros Hr. unfold evict.
  assert (Hstale : forall x,
            stale now x = negb (After (Sended x) (now - CacheLifeTime))).
  { intros x. unfold stale, After. by rewrite Z.ltb_antisym, negb_involutive. }
  destruct (evict_scan_cases q (now - CacheLifeTime) (idUnsended q) Hr)
    as [[-> Hall]|(j & y & Hj & Hy & Hst & Hbetween & ->)].
  - exists q, 0%nat. rewrite Nat.sub_0_r. cbn [drop].
    repeat split; [lia|]. intros i x Hi Hx.
    by rewrite Hstale, (Hall i x Hi Hx).
  - exists {| qlist := drop (S j) (qlist q); counter := counter q;
              idUnsended := idUnsended q - S j |}, (S j).
    cbn [qlist idUnsended counter].
    split; [done|]. split; [lia|]. do 3 (split; [done|]). split.
    + rewrite drop_drop. f_equal. lia.
    + intros i x Hi Hx. rewrite lookup_drop in Hx.
      rewrite Hstale, (Hbetween (S j + i)%nat x ltac:(lia) Hx). done.
Qed.

Lemma evict_leaves_no_stale_item_witness :
  cursor_in_range queue6 /\
  exists q' k,
    evict (H := fixed100) 900 queue6 = Some q' /\
    (k <= idUnsended queue6)%nat /\
    qlist q' = drop k (qlist queue6) /\
    idUnsended q' = (idUnsended queue6 - k)%nat /\
    counter q' = counter queue6 /\
    drop (idUnsended q') (qlist q')
      = drop (idUnsended queue6) (qlist queue6) /\
    forall i x, (i < idUnsended q')%nat -> qlist q' !! i = Some x ->
      stale (H := fixed100) 900 x = false.
Proof.
  assert (Hr : cursor_in_range queue6) by (vm_compute; lia).
  split; [exact Hr|].
  exact (evict_leaves_no_stale_item (H := fixed100) 900 queue6 Hr).
Defined.

(** X11: an eviction pass keeps the sent region well formed: the items
    before the cursor stay stamped, and their send times stay
    non-decreasing. *)
Theorem evict_keeps_sent_region `{Package} (now : Time)
    (q q' : notificationQueue) :
  cursor_in_range q -> evict now q = Some q' ->
  (sent_are_stamped q -> sent_are_stamped q') /\
  (sent_sorted q -> sent_sorted q').
Proof.
  intros Hr Hev.
  destruct (evict_leaves_no_stale_item now q Hr)
    as (q1 & k & Hev1 & Hk & Hl & Hi & _).
  rewrite Hev in Hev1. injection Hev1 as <-. split.
  - intros Hst i x Hlt Hx. rewrite Hl, lookup_drop in Hx.
    apply (Hst (k + i)%nat); [lia|done].
  - intros Hso i j x y Hij Hj Hx Hy. rewrite Hl, lookup_drop in Hx, Hy.
    apply (Hso (k + i)%nat (k + j)%nat); [lia|lia|done|done].
Qed.

Lemma evict_keeps_sent_region_witness :
  cursor_in_range queue6 /\
  evict (H := fixed100) 900 queue6 =
    Some {| qlist := drop 3 (qlist queue6); counter := counter queue6;
            idUnsended := 2 |} /\
  (sent_are_stamped queue6 ->
   sent_are_stamped {| qlist := drop 3 (qlist queue6);
                       counter := counter queue6; idUnsended := 2 |}).
Proof.
  assert (Hr : cursor_in_range queue6) by (vm_compute; lia).
  assert (Hev : evict (H := fixed100) 900 queue6 =
    Some {| qlist := drop 3 (qlist queue6); counter := counter queue6;
            idUnsended := 2 |}) by reflexivity.
  split; [exact Hr|]. split; [exact Hev|].
  exact (proj1 (evict_keeps_sent_region (H := fixed100) 900 queue6 _
                  Hr Hev)).
Defined.

(** * Runs of operations *)

Lemma run_op_cursor_in_range `{Package} (o : queue_op)
    (q : notificationQueue) :
  cursor_in_range q ->
  exists q', run_op o q = Some q' /\ cursor_in_range q'.
Proof.
  intros Hr. destruct o as [ntf tokens|mem l|now|id exclude|now w|now];
    cbn [run_op].
  - eexists. split; [done|]. by apply AddNotification_cursor_in_range.
  - eexists. split; [done|]. by apply Put_cursor_in_range.
  - eexists. split; [done|]. by apply Get_cursor_in_range.
  - destruct (ResendFromID_first_match q id exclude Hr)
      as (q' & found & Heq & _).
    rewrite Heq. exists q'. split; [done|].
    by apply (ResendFromID_cursor_in_range q q' id exclude found).
  - eexists. split; [done|]. by apply WriteTo_cursor_in_range.
  - destruct (evict_leaves_no_stale_item now q Hr) as (q' & k & Heq & _).
    exists q'. split; [done|]. by apply (evict_cursor_in_range now q).
Qed.

(** X12: every run of queue operations on a fresh queue, each operation
    run to its end before the next, goes through without an index out of
    range, and leaves the cursor between 0 and the length of the list. *)
Theorem run_ops_cursor_in_range `{Package} (ops : list queue_op) :
  exists q, run_ops ops newNotificationQueue = Some q /\ cursor_in_range q.
Proof.
  assert (Hgen : forall q, cursor_in_range q ->
            exists q', run_ops ops q = Some q' /\ cursor_in_range q').
  { induction ops as [|o os IH]; intros q Hr; cbn [run_ops]; [by eauto|].
    destruct (run_op_cursor_in_range o q Hr) as (q1 & -> & Hr1).
    by apply IH. }
  apply Hgen. unfold cursor_in_range. cbn. lia.
Qed.

(** * The batched flush, in general *)

Lemma take_drop_taken {A : Type} (k : nat) (p : list A) :
  take k p ++ drop (length (take k p)) p = p.
Proof.
  rewrite length_take. destruct (le_lt_dec k (length p)).
  - rewrite Nat.min_l by done. apply take_drop.
  - rewrite Nat.min_r, take_ge, drop_ge, app_nil_r by lia. done.
Qed.

(** What [bytes.Buffer.WriteTo] does with a scripted sink: it makes at most
    one write, of no more than the buffer; the count is the number of bytes
    the sink took, and those bytes followed by what stays in the buffer are
    the buffer as it was. *)
Lemma Buffer_WriteTo_spec (b b' : list byte) (w w' : Writer) (n : Z)
    (e : option error) :
  Buffer_WriteTo b w = (b', w', n, e) ->
  exists frames,
    wrote w' = wrote w ++ frames /\
    n = Z.of_nat (length (concat frames)) /\
    Forall (fun f => (length f <= length b)%nat) frames /\
    concat frames ++ b' = b /\
    (e = None -> b' = []).
Proof.
  unfold Buffer_WriteTo, Write. destruct b as [|x b].
  - intros [= <- <- <- <-]. exists []. by rewrite app_nil_r.
  - set (p := x :: b). destruct (faults w) as [|[[k e']|] rest];
      intros [= <- <- <- <-]; cbn [wrote].
    + exists [p]. cbn [concat]. rewrite !app_nil_r.
      split; [done|]. split; [done|].
      split; [by constructor; [|constructor]|]. by split.
    + exists [take k p]. cbn [concat]. rewrite !app_nil_r, Nat2Z.id.
      rewrite take_drop_taken.
      split; [done|]. split; [done|]. split; [|by split].
      constructor; [|constructor]. rewrite length_take.
      apply Nat.le_min_r.
    + exists [p]. cbn [concat]. rewrite !app_nil_r.
      split; [done|]. split; [done|].
      split; [by constructor; [|constructor]|]. by split.
Qed.

(** The loop of [WriteTo] adds frames to the log of the sink, and counts in
    [total] the bytes the sink took. *)
Lemma WriteTo_loop_total `{Package} (now : nat -> Time) (len : nat)
    (pending : list notification) :
  forall i st l' st',
    WriteTo_loop now len i pending st = (l', st') ->
    exists frames,
      wrote (sink st') = wrote (sink st) ++ frames /\
      total st' = total st + Z.of_nat (length (concat frames)).
Proof.
  induction pending as [|ntf rest IH]; intros i st l' st' Hloop;
    cbn [WriteTo_loop] in Hloop.
  - injection Hloop as <- <-. exists []. rewrite app_nil_r.
    split; [done|cbn; lia].
  - repeat case_match; simplify_eq; cbn [sink total];
      repeat match goal with
             | Hb : Buffer_WriteTo _ _ = _ |- _ =>
                 apply Buffer_WriteTo_spec in Hb
                   as (fr & Hfr & -> & _ & _ & _)
             | Hrec : WriteTo_loop _ _ _ _ _ = _ |- _ =>
                 apply IH in Hrec as (fr' & Hfr' & ->);
                 cbn [sink total] in Hfr'
             end;
      cbn [total sink] in *;
      first
        [ match goal with
          | Hfr : wrote ?w = wrote (sink st) ++ ?fr,
            Hfr' : wrote (sink st') = wrote ?w ++ ?fr' |- _ =>
              exists (fr ++ fr');
              rewrite Hfr', Hfr, app_assoc, concat_app, length_app;
              split; [done|lia]
          end
        | match goal with
          | Hfr : wrote _ = wrote (sink st) ++ ?fr |- _ =>
              exists fr; split; [exact Hfr|lia]
          end
        | exists []; rewrite app_nil_r; split; [done|cbn; lia] ].
Qed.

(** X13: the total that [WriteTo] returns is the number of bytes the sink
    accepted during the call, over all the writes it made. *)
Theorem WriteTo_total_is_bytes_accepted `{Package} (now : nat -> Time)
    (q : notificationQueue) (w : Writer) :
  exists frames,
    wrote (WriteTo now q w).1.1.2 = wrote w ++ frames /\
    (WriteTo now q w).1.2 = Z.of_nat (length (concat frames)).
Proof.
  unfold WriteTo.
  destruct (WriteTo_loop now (length (qlist q)) (idUnsended q)
              (drop (idUnsended q) (qlist q))
              {| buf := []; sink := w; total := 0; err := None;
                 sended := 0 |}) as [pending' st] eqn:Hloop.
  apply WriteTo_loop_total in Hloop as (frames & Hw & Ht).
  cbn [sink total] in Hw, Ht. exists frames.
  destruct (idUnsended q <? sended st)%nat; cbn [fst snd];
    (split; [done|lia]).
Qed.

(** With a serializer that writes as many bytes as [Len] announces, the
    buffer of the loop never outgrows the frame limit, and so does no
    frame. *)
Lemma WriteTo_loop_frame_bound `{Package} (now : nat -> Time) (len : nat)
    (pending : list notification) :
  0 <= MaxFrameBuffer ->
  Forall (fun x => Z.of_nat (length (ntfWriteTo x).1) = Len x) pending ->
  forall i st l' st',
    Z.of_nat (length (buf st)) <= MaxFrameBuffer ->
    WriteTo_loop now len i pending st = (l', st') ->
    exists frames,
      wrote (sink st') = wrote (sink st) ++ frames /\
      Forall (fun f => Z.of_nat (length f) <= MaxFrameBuffer) frames.
Proof.
  intros Hmax Hser.
  induction Hser as [|ntf rest Hntf Hrest IH]; intros i st l' st' Hbuf Hloop;
    cbn [WriteTo_loop] in Hloop.
  - injection Hloop as <- <-. exists []. by rewrite app_nil_r.
  - assert (Hflush : forall b b' w' n e,
              Z.of_nat (length b) <= MaxFrameBuffer ->
              Buffer_WriteTo b (sink st) = (b', w', n, e) ->
              exists fr, wrote w' = wrote (sink st) ++ fr /\
                Forall (fun f => Z.of_nat (length f) <= MaxFrameBuffer) fr /\
                (e = None -> b' = [])).
    { intros b b' w' n e Hb Hbw.
      apply Buffer_WriteTo_spec in Hbw as (fr & Hfr & _ & Hle & _ & He).
      exists fr. split; [done|]. split; [|done].
      eapply Forall_impl; [exact Hle|]. cbn. intros f Hf. lia. }
    destruct (Z.of_nat (length (buf st)) + Len ntf <=? MaxFrameBuffer)
      eqn:Hfit.
    + apply Z.leb_le in Hfit.
      destruct (ntfWriteTo ntf) as [bytes [e|]] eqn:Hw; cbn [fst] in Hntf.
      * injection Hloop as <- <-. exists []. by rewrite app_nil_r.
      * assert (Hb : Z.of_nat (length (buf st ++ bytes)) <= MaxFrameBuffer)
          by (rewrite length_app; lia).
        destruct (i <? len - 1)%nat.
        -- destruct (WriteTo_loop now len (S i) rest _) as [rest' st1]
             eqn:Hrec.
           injection Hloop as <- <-.
           apply IH in Hrec; [|exact Hb]. exact Hrec.
        -- destruct (Buffer_WriteTo (buf st ++ bytes) (sink st))
             as [[[b' w'] n] e] eqn:Hbw.
           destruct (Hflush _ _ _ _ _ Hb Hbw) as (fr & Hfr & Hle & He).
           destruct e as [e|].
           ++ injection Hloop as <- <-. by exists fr.
           ++ destruct (WriteTo_loop now len (S i) rest _) as [rest' st1]
                eqn:Hrec.
              injection Hloop as <- <-.
              apply IH in Hrec as (fr' & Hfr' & Hle');
                [|cbn [buf]; rewrite (He eq_refl); cbn; lia].
              cbn [sink] in Hfr'. exists (fr ++ fr').
              split; [by rewrite Hfr', Hfr, app_assoc|].
              by apply Forall_app.
    + destruct (Buffer_WriteTo (buf st) (sink st))
        as [[[b' w'] n] e] eqn:Hbw.
      destruct (Hflush _ _ _ _ _ Hbuf Hbw) as (fr & Hfr & Hle & He).
      destruct e as [e|].
      * injection Hloop as <- <-. by exists fr.
      * destruct (WriteTo_loop now len (S i) rest _) as [rest' st1]
          eqn:Hrec.
        injection Hloop as <- <-.
        apply IH in Hrec as (fr' & Hfr' & Hle');
          [|cbn [buf]; rewrite (He eq_refl); cbn; lia].
        cbn [sink] in Hfr'. exists (fr ++ fr').
        split; [by rewrite Hfr', Hfr, app_assoc|].
        by apply Forall_app.
Qed.

(** X14: when the frame limit is not negative and every pending item
    serializes to as many bytes as its [Len] announces, no write that
    [WriteTo] makes is larger than [MaxFrameBuffer]. *)
Theorem WriteTo_frames_within_limit `{Package} (now : nat -> Time)
    (q : notificationQueue) (w : Writer) :
  0 <= MaxFrameBuffer ->
  Forall (fun x => Z.of_nat (length (ntfWriteTo x).1) = Len x)
    (drop (idUnsended q) (qlist q)) ->
  exists frames,
    wrote (WriteTo now q w).1.1.2 = wrote w ++ frames /\
    Forall (fun f => Z.of_nat (length f) <= MaxFrameBuffer) frames.
Proof.
  intros Hmax Hser. unfold WriteTo.
  destruct (WriteTo_loop now (length (qlist q)) (idUnsended q)
              (drop (idUnsended q) (qlist q))
              {| buf := []; sink := w; total := 0; err := None;
                 sended := 0 |}) as [pending' st] eqn:Hloop.
  apply WriteTo_loop_frame_bound in Hloop as (frames & Hw & Hle);
    [|done|done|cbn; lia].
  cbn [sink] in Hw. exists frames.
  by destruct (idUnsended q <? sended st)%nat; cbn [fst snd].
Qed.

Lemma WriteTo_frames_within_limit_witness :
  0 <= @MaxFrameBuffer fixed100 /\
  Forall (fun x => Z.of_nat (length (@ntfWriteTo fixed100 x).1)
                   = @Len fixed100 x)
    (drop (idUnsended queue30) (qlist queue30)) /\
  exists frames,
    wrote (WriteTo (H := fixed100) noon queue30 quiet_sink).1.1.2
      = wrote quiet_sink ++ frames /\
    Forall (fun f => Z.of_nat (length f) <= @MaxFrameBuffer fixed100) frames.
Proof.
  assert (Hmax : 0 <= @MaxFrameBuffer fixed100) by (cbn; lia).
  assert (Hser : Forall (fun x => Z.of_nat
                           (length (@ntfWriteTo fixed100 x).1)
                         = @Len fixed100 x)
                   (drop (idUnsended queue30) (qlist queue30))).
  { apply Forall_forall. intros x _. cbn. unfold wire100.
    destruct (Byte.of_N _); reflexivity. }
  split; [exact Hmax|]. split; [exact Hser|].
  exact (WriteTo_frames_within_limit (H := fixed100) noon queue30
           quiet_sink Hmax Hser).
Defined.

(** X15: with nothing pending [WriteTo] makes no write, returns a total of
    0 and no error, and leaves the queue as it is. *)
Theorem WriteTo_nothing_pending `{Package} (now : nat -> Time)
    (q : notificationQueue) (w : Writer) :
  (length (qlist q) <= idUnsended q)%nat ->
  WriteTo now q w = (q, w, 0, None).
Proof.
  intros Hle. unfold WriteTo. rewrite drop_ge by done.
  cbn [WriteTo_loop sended sink total err]. rewrite app_nil_r, take_ge by done.
  replace (idUnsended q <? 0)%nat with false
    by (symmetry; apply Nat.ltb_ge; lia).
  by destruct q.
Qed.

Lemma WriteTo_nothing_pending_witness :
  (length (qlist newNotificationQueue)
   <= idUnsended newNotificationQueue)%nat /\
  WriteTo (H := fixed100) noon newNotificationQueue quiet_sink
  = (newNotificationQueue, quiet_sink, 0, None).
Proof.
  assert (Hle : (length (qlist newNotificationQueue)
                 <= idUnsended newNotificationQueue)%nat) by (cbn; lia).
  split; [exact Hle|].
  exact (WriteTo_nothing_pending (H := fixed100) noon newNotificationQueue
           quiet_sink Hle).
Defined.

Lemma Forall2_same_or_stamped (l : list notification) :
  Forall2 same_or_stamped l l.
Proof. induction l; constructor; [by left|done]. Qed.




(** A buffer that is not empty, flushed into a sink without faults. *)
Lemma Buffer_WriteTo_quiet (b : list byte) (w : Writer) :
  b <> [] -> faults w = [] ->
  Buffer_WriteTo b w
  = ([], {| wrote := wrote w ++ [b]; faults := [] |},
     Z.of_nat (length b), None).
Proof.
  intros Hb Hw. unfold Buffer_WriteTo, Write. rewrite Hw.
  by destruct b.
Qed.

(** The loop of [WriteTo] over items that all fit the frame: they are put
    in the buffer one after the other and flushed with the last. *)
Lemma WriteTo_loop_one_frame `{Package} (now : nat -> Time) (len : nat)
    (pending : list notification) :
  Forall serializes pending ->
  forall i st,
    pending <> [] -> (i + length pending)%nat = len ->
    Z.of_nat (length (buf st ++ frame_of pending)) <= MaxFrameBuffer ->
    buf st ++ frame_of pending <> [] ->
    faults (sink st) = [] ->
    WriteTo_loop now len i pending st
    = (zip_with set_Sended pending (map now (seq i (length pending))),
       {| buf := [];
          sink := {| wrote := wrote (sink st)
                              ++ [buf st ++ frame_of pending];
                     faults := [] |};
          total := total st
                   + Z.of_nat (length (buf st ++ frame_of pending));
          err := None;
          sended := len - 1 |}).
Proof.
  induction 1 as [|x rest [Hok Hlen] Hrest IH];
    intros i st Hne Hi Hfit Hnonempty Hquiet; [done|].
  cbn [WriteTo_loop]. unfold frame_of in *. cbn [map concat] in *.
  destruct (ntfWriteTo x) as [bytes e] eqn:Hw. cbn [fst snd] in *. subst e.
  rewrite !length_app in Hfit.
  replace (Z.of_nat (length (buf st)) + Len x <=? MaxFrameBuffer) with true
    by (symmetry; apply Z.leb_le; lia).
  cbn [length seq map zip_with] in *.
  destruct rest as [|y rest]; cbn [length] in Hi.
  - replace (i <? len - 1)%nat with false
      by (symmetry; apply Nat.ltb_ge; lia).
    cbn [map concat] in *. rewrite app_nil_r in *.
    rewrite Buffer_WriteTo_quiet by done.
    cbn [WriteTo_loop zip_with]. do 3 f_equal. lia.
  - replace (i <? len - 1)%nat with true
      by (symmetry; apply Nat.ltb_lt; cbn [length] in Hi; lia).
    rewrite IH; cbn [buf sink total];
      [|done|cbn [length] in *; lia
       |rewrite <- app_assoc, !length_app; lia
       |by rewrite <- app_assoc|done].
    by rewrite <- !app_assoc.
Qed.

(** X17: when at least two items are pending, the serializer works on each
    of them, their bytes together fit one frame and are not empty, and the
    sink has no fault in store, [WriteTo] makes one write, of all their
    bytes in queue order, returns their number and no error, stamps every
    pending item and moves the cursor to the end of the list. *)
Theorem WriteTo_one_frame `{Package} (now : nat -> Time)
    (q : notificationQueue) (w : Writer) :
  let pending := drop (idUnsended q) (qlist q) in
  cursor_in_range q -> (2 <= length pending)%nat ->
  Forall serializes pending ->
  Z.of_nat (length (frame_of pending)) <= MaxFrameBuffer ->
  frame_of pending <> [] -> faults w = [] ->
  WriteTo now q w
  = ({| qlist := take (idUnsended q) (qlist q)
                 ++ zip_with set_Sended pending
                      (map now (seq (idUnsended q) (length pending)));
        counter := counter q;
        idUnsended := length (qlist q) |},
     {| wrote := wrote w ++ [frame_of pending]; faults := [] |},
     Z.of_nat (length (frame_of pending)), None).
Proof.
  intros pending Hr Htwo Hser Hfit Hne Hquiet. unfold WriteTo.
  unfold cursor_in_range in Hr.
  assert (Hlen : length pending = (length (qlist q) - idUnsended q)%nat)
    by apply length_drop.
  fold pending.
  rewrite (WriteTo_loop_one_frame now (length (qlist q)) pending Hser);
    cbn [buf sink total sended app];
    [|by intros ->|lia|done|done|done].
  replace (idUnsended q <? length (qlist q) - 1)%nat with true
    by (symmetry; apply Nat.ltb_lt; lia).
  do 3 f_equal. f_equal. lia.
Qed.

Lemma WriteTo_one_frame_witness :
  cursor_in_range queue10 /\
  (2 <= length (drop (idUnsended queue10) (qlist queue10)))%nat /\
  Z.of_nat (length (frame_of (H := fixed100)
                      (drop (idUnsended queue10) (qlist queue10))))
    <= @MaxFrameBuffer fixed100 /\
  WriteTo (H := fixed100) noon queue10 quiet_sink
  = ({| qlist := take (idUnsended queue10) (qlist queue10)
                 ++ zip_with set_Sended
                      (drop (idUnsended queue10) (qlist queue10))
                      (map noon
                         (seq (idUnsended queue10)
                            (length (drop (idUnsended queue10)
                                       (qlist queue10)))));
        counter := counter queue10;
        idUnsended := length (qlist queue10) |},
     {| wrote := wrote quiet_sink
                 ++ [frame_of (H := fixed100)
                       (drop (idUnsended queue10) (qlist queue10))];
        faults := [] |},
     Z.of_nat (length (frame_of (H := fixed100)
                         (drop (idUnsended queue10) (qlist queue10)))),
     None).
Proof.
  assert (Hr : cursor_in_range queue10) by (vm_compute; lia).
  assert (Htwo : (2 <= length (drop (idUnsended queue10)
                                 (qlist queue10)))%nat)
    by (vm_compute; lia).
  assert (Hser : Forall (serializes (H := fixed100))
                   (drop (idUnsended queue10) (qlist queue10))).
  { apply Forall_forall. intros x _. split; [reflexivity|].
    cbn. unfold wire100. destruct (Byte.of_N _); reflexivity. }
  assert (Hfit : Z.of_nat (length (frame_of (H := fixed100)
                   (drop (idUnsended queue10) (qlist queue10))))
                 <= @MaxFrameBuffer fixed100)
    by (vm_compute; discriminate).
  assert (Hne : frame_of (H := fixed100)
                  (drop (idUnsended queue10) (qlist queue10)) <> [])
    by (vm_compute; discriminate).
  split; [exact Hr|]. split; [exact Htwo|]. split; [exact Hfit|].
  exact (WriteTo_one_frame (H := fixed100) noon queue10 quiet_sink
           Hr Htwo Hser Hfit Hne eq_refl).
Defined.

(** * The feedback reader, on any stream *)

Module feedback_bounds.
Import feedback.

Lemma u8_range (b : byte) : 0 <= u8 b < 256.
Proof. unfold u8. pose proof (Byte.to_N_bounded b). lia. Qed.

Lemma u8_low_bits (b : byte) : u8 b = Z.land (u8 b) (Z.ones 8).
Proof.
  rewrite Z.land_ones by lia. symmetry. apply Z.mod_small.
  pose proof (u8_range b). lia.
Qed.

(** The decoded numbers are a [uint16] and a [uint32]. *)
Lemma Uint16_range (b : list byte) : 0 <= Uint16 b < 2 ^ 16.
Proof.
  unfold Uint16.
  rewrite (u8_low_bits (nth 1 b x00)), (u8_low_bits (nth 0 b x00)).
  set (x := u8 (nth 1 b x00)). set (y := u8 (nth 0 b x00)).
  assert (Hm : Z.lor (Z.land x (Z.ones 8)) (Z.shiftl (Z.land y (Z.ones 8)) 8)
               = Z.land (Z.lor (Z.land x (Z.ones 8))
                           (Z.shiftl (Z.land y (Z.ones 8)) 8)) (Z.ones 16))
    by Z.bitblast.
  rewrite Hm, Z.land_ones by lia. apply Z.mod_pos_bound. lia.
Qed.

Lemma Uint32_range (b : list byte) : 0 <= Uint32 b < 2 ^ 32.
Proof.
  unfold Uint32.
  rewrite (u8_low_bits (nth 3 b x00)), (u8_low_bits (nth 2 b x00)),
    (u8_low_bits (nth 1 b x00)), (u8_low_bits (nth 0 b x00)).
  set (x3 := u8 (nth 3 b x00)). set (x2 := u8 (nth 2 b x00)).
  set (x1 := u8 (nth 1 b x00)). set (x0 := u8 (nth 0 b x00)).
  set (v := Z.lor _ _).
  assert (Hm : v = Z.land v (Z.ones 32)) by (unfold v; Z.bitblast).
  rewrite Hm, Z.land_ones by lia. apply Z.mod_pos_bound. lia.
Qed.

(** A [Read] leaves the length of the buffer as it is. *)
Lemma length_Conn_Read (c : Conn) (p : list byte) :
  length (Conn_Read c p).1.2 = length p.
Proof.
  unfold Conn_Read. destruct (reads c) as [|[data e] rest]; [done|].
  cbn [fst snd]. rewrite length_app, length_drop, !length_take. lia.
Qed.

(** A [Read] that returns no error has used one entry of the script. *)
Lemma reads_Conn_Read (c c' : Conn) (p p' : list byte) :
  Conn_Read c p = (c', p', None) ->
  length (reads c) = S (length (reads c')) /\ length p' = length p.
Proof.
  intros Hread. pose proof (length_Conn_Read c p) as Hlen.
  rewrite Hread in Hlen. split; [|exact Hlen].
  unfold Conn_Read in Hread. destruct (reads c) as [|[data e] rest]; [done|].
  by injection Hread as <- _ _.
Qed.

Lemma Feedback_loop_records (fuel : nat) :
  forall conn header result conn' rs err,
    Feedback_loop fuel conn header result = Some (conn', rs, err) ->
    exists new, rs = result ++ new /\ Forall fits_wire new /\
      (2 * length new + length (reads conn') <= length (reads conn))%nat.
Proof.
  induction fuel as [|fuel IH]; intros conn header result conn' rs err Hloop;
    [done|].
  cbn [Feedback_loop] in Hloop.
  destruct (Conn_Read conn header) as [[conn1 header1] [e1|]] eqn:Hr1.
  { injection Hloop as <- <- <-. exists []. rewrite app_nil_r.
    split; [done|]. split; [constructor|]. cbn [length].
    unfold Conn_Read in Hr1. destruct (reads conn) as [|[d e] rest] eqn:Hc.
    - injection Hr1 as <- _ _. rewrite Hc. cbn. lia.
    - injection Hr1 as <- _ _. cbn. lia. }
  apply reads_Conn_Read in Hr1 as [Hn1 _].
  set (size := Z.to_nat (Uint16 (take 2 (drop 4 header1)))) in *.
  destruct (Conn_Read conn1 (replicate size x00))
    as [[conn2 token] [e2|]] eqn:Hr2.
  { injection Hloop as <- <- <-. exists []. rewrite app_nil_r.
    split; [done|]. split; [constructor|]. cbn [length].
    unfold Conn_Read in Hr2. destruct (reads conn1) as [|[d e] rest] eqn:Hc.
    - injection Hr2 as <- _ _. rewrite Hc. cbn. lia.
    - injection Hr2 as <- _ _. cbn [reads length] in *. lia. }
  apply reads_Conn_Read in Hr2 as [Hn2 Htoken].
  apply IH in Hloop as (new & -> & Hnew & Hlen).
  exists ({| timestamp := Uint32 (take 4 header1); Token := token |} :: new).
  split; [by rewrite <- app_assoc|]. split.
  - constructor; [|done]. split; cbn [timestamp Token].
    + apply Uint32_range.
    + rewrite Htoken, length_replicate. unfold size.
      pose proof (Uint16_range (take 2 (drop 4 header1))). lia.
  - cbn [length]. lia.
Qed.

(** X18: on any stream, every record that [Feedback] returns has a
    timestamp below 2^32 and a token of fewer than 2^16 bytes, and each
    record has taken two reads: there are at most half as many records as
    the stream has reads. *)
Theorem Feedback_records_fit (config : Config) (conn : Conn)
    (rs : list FeedbackResponse) (err : option error) (c' : option Conn) :
  Dial config (if Sandbox config then feedbackServerSandbox
               else feedbackServer) = inl conn ->
  Feedback config = Some (rs, err, c') ->
  Forall fits_wire rs /\ (2 * length rs <= length (reads conn))%nat.
Proof.
  intros Hd. unfold Feedback. rewrite Hd.
  destruct (Feedback_loop _ conn _ []) as [[[conn' rs'] err']|] eqn:Hloop;
    [|done].
  intros [= <- <- <-].
  apply Feedback_loop_records in Hloop as (new & -> & Hfit & Hlen).
  cbn [app]. split; [done|lia].
Qed.

Lemma Feedback_records_fit_witness :
  Forall fits_wire two_records /\
  (2 * length two_records <= length (stream_of two_records))%nat.
Proof.
  exact (Feedback_records_fit two_record_config
           {| reads := stream_of two_records; closed := false |}
           two_records None
           (Some {| reads := []; closed := true |}) eq_refl eq_refl).
Defined.

Lemma drop_EOF_not_EOF (e : error) : drop_EOF e <> Some EOF.
Proof. by destruct e. Qed.

Lemma Feedback_loop_error (fuel : nat) :
  forall conn header result conn' rs err,
    Feedback_loop fuel conn header result = Some (conn', rs, err) ->
    err <> Some EOF.
Proof.
  induction fuel as [|fuel IH]; intros conn header result conn' rs err Hloop;
    [done|].
  cbn [Feedback_loop] in Hloop.
  destruct (Conn_Read conn header) as [[conn1 header1] [e1|]].
  { injection Hloop as _ _ <-. apply drop_EOF_not_EOF. }
  destruct (Conn_Read conn1 _) as [[conn2 token] [e2|]].
  { injection Hloop as _ _ <-. apply drop_EOF_not_EOF. }
  by apply IH in Hloop.
Qed.

(** X21: once [Dial] has succeeded, [Feedback] returns on any stream,
    whatever the reads deliver, and the error it returns is never
    [io.EOF]: the end of the stream is reported as success. *)
Theorem Feedback_never_reports_EOF (config : Config) (conn : Conn) :
  Dial config (if Sandbox config then feedbackServerSandbox
               else feedbackServer) = inl conn ->
  exists rs err conn',
    Feedback config = Some (rs, err, Some conn') /\ err <> Some EOF.
Proof.
  intros Hd. unfold Feedback. rewrite Hd.
  destruct (feedback_facts.Feedback_loop_returns (S (length (reads conn)))
              conn (replicate 6 x00) []) as (conn' & rs & err & Hloop & _);
    [lia|].
  rewrite Hloop. eexists _, _, _. split; [done|].
  by apply Feedback_loop_error in Hloop.
Qed.

Lemma Feedback_never_reports_EOF_witness :
  exists rs err conn',
    Feedback two_record_config = Some (rs, err, Some conn') /\
    err <> Some EOF.
Proof.
  exact (Feedback_never_reports_EOF two_record_config
           {| reads := stream_of two_records; closed := false |} eq_refl).
Defined.

End feedback_bounds.

(** * The send loop of the client *)

Lemma same_or_stamped_trans (x y z : notification) :
  same_or_stamped x y -> same_or_stamped y z -> same_or_stamped x z.
Proof.
  intros [->|[t ->]] [->|[t' ->]]; [by left|by right; eexists..].
Qed.

Lemma Forall2_same_or_stamped_trans (l k m : list notification) :
  Forall2 same_or_stamped l k -> Forall2 same_or_stamped k m ->
  Forall2 same_or_stamped l m.
Proof.
  intros Hlk. revert m. induction Hlk as [|x y l k Hxy _ IH]; intros m Hkm;
    inversion Hkm; subst; constructor;
    [by eapply same_or_stamped_trans|by apply IH].
Qed.

(** Stamping an item in place. *)
Lemma Forall2_same_or_stamped_insert (l : list notification) (i : nat)
    (x : notification) (t : Time) :
  l !! i = Some x ->
  Forall2 same_or_stamped l (<[i := set_Sended x t]> l).
Proof.
  revert i. induction l as [|a l IH]; intros [|i] Hx; [done|done|..].
  - injection Hx as ->. constructor; [by right; eexists|].
    apply Forall2_same_or_stamped.
  - constructor; [by left|]. by apply IH.
Qed.

(** What a flush to the connection does: the bytes the sink took followed
    by what stays in the buffer are the old buffer; a failed flush uses up a
    fault of the sink and marks the connection as down. *)
Lemma Conn_flush_spec (b b' : list byte) (c k : Conn) (n : Z)
    (e : option error) :
  Conn_flush b c = (b', k, n, e) ->
  concat (wrote (wire k)) ++ b' = concat (wrote (wire c)) ++ b /\
  dials k = dials c /\
  match e with
  | None =>
      b' = [] /\ isConnected k = isConnected c /\
      (length (faults (wire k)) <= length (faults (wire c)))%nat
  | Some _ =>
      isConnected k = false /\
      (length (faults (wire k)) < length (faults (wire c)))%nat
  end.
Proof.
  unfold Conn_flush, Buffer_WriteTo, Write. destruct b as [|x b].
  - intros [= <- <- <- <-]. by cbn.
  - set (p := x :: b). destruct (faults (wire c)) as [|[[m e']|] rest] eqn:Hf;
      intros [= <- <- <- <-]; cbn [wrote wire faults dials isConnected];
      rewrite ?Hf, concat_app; cbn [concat length]; rewrite ?app_nil_r.
    + done.
    + split; [|split; [done|split; [done|lia]]].
      rewrite Nat2Z.id, <- app_assoc. by rewrite take_drop_taken.
    + split; [done|]. split; [done|]. split; [done|]. split; [done|lia].
Qed.

Section SendQueueFacts.
Context `{Package}.
Variable clock : nat -> Time.
Hypothesis Hblind : Sended_blind.

(** Fetching keeps what there is to deliver and the work ahead; the item it
    takes in hand is the one just before the cursor, and when it comes back
    empty-handed nothing is pending. *)
Lemma fetch_spec (st : sending) :
  cursor_in_range (queue (s_client st)) -> in_hand_ok st ->
  let st1 := fetch clock st in
  conn (s_client st1) = conn (s_client st) /\
  isSendign (s_client st1) = isSendign (s_client st) /\
  Delay (s_client st1) = Delay (s_client st) /\
  s_buf st1 = s_buf st /\
  cursor_in_range (queue (s_client st1)) /\ in_hand_ok st1 /\
  Forall2 same_or_stamped (qlist (queue (s_client st)))
    (qlist (queue (s_client st1))) /\
  counter (queue (s_client st1)) = counter (queue (s_client st)) /\
  todo st1 = todo st /\ load st1 = load st /\
  (s_ntf st1 = None ->
   idUnsended (queue (s_client st1))
   = length (qlist (queue (s_client st1)))).
Proof.
  intros Hr Hhand st1. unfold st1, fetch.
  destruct (s_ntf st) as [x|] eqn:Hntf.
  { repeat split; try done; [apply Forall2_same_or_stamped|].
    by rewrite Hntf. }
  set (q := queue (s_client st)) in *.
  assert (Hnone : forall t, (length (qlist q) <= idUnsended q)%nat ->
            Get t q = (q, None)) by (intros; by apply Get_nothing_pending).
  assert (Hsame : with_queue (s_client st) q = s_client st)
    by (unfold q; by destruct (s_client st)).
  destruct (Get_cases (clock (s_tick st)) q) as [[Hle ->]|(x & Hx & ->)].
  - unfold cursor_in_range in Hr.
    assert (Hend : idUnsended q = length (qlist q)) by lia.
    assert (Hgoal : forall k,
      let st2 := {| s_client := with_queue (s_client st) q;
                    s_buf := s_buf st; s_ntf := None;
                    s_sended := s_sended st; s_tick := k |} in
      conn (s_client st2) = conn (s_client st) /\
      isSendign (s_client st2) = isSendign (s_client st) /\
      Delay (s_client st2) = Delay (s_client st) /\
      s_buf st2 = s_buf st /\
      cursor_in_range (queue (s_client st2)) /\ in_hand_ok st2 /\
      Forall2 same_or_stamped (qlist q) (qlist (queue (s_client st2))) /\
      counter (queue (s_client st2)) = counter q /\
      todo st2 = todo st /\ load st2 = load st /\
      (s_ntf st2 = None ->
       idUnsended (queue (s_client st2))
       = length (qlist (queue (s_client st2))))).
    { intros k st2. unfold st2, todo, load, in_hand_ok.
      cbn [s_client s_buf s_ntf]. rewrite Hsame, Hntf. fold q.
      repeat split; try done. apply Forall2_same_or_stamped. }
    destruct (0 <? Delay (s_client st)); [|apply Hgoal].
    rewrite Hnone by done. apply Hgoal.
  - apply lookup_lt_Some in Hx as Hlt.
    set (x' := set_Sended x (clock (s_tick st))).
    set (q1 := {| qlist := <[idUnsended q := x']> (qlist q);
                  counter := counter q; idUnsended := S (idUnsended q) |}).
    unfold todo, load, in_hand_ok, cursor_in_range.
    cbn [s_client s_buf s_ntf with_queue conn isSendign Delay queue].
    fold q. rewrite Hntf. cbn [qlist idUnsended counter q1 hand_bytes].
    rewrite length_insert.
    split; [done|]. split; [done|]. split; [done|]. split; [done|].
    split; [lia|]. split.
    { exists (idUnsended q). split; [done|].
      by rewrite list_lookup_insert_eq. }
    split; [by apply Forall2_same_or_stamped_insert|]. split; [done|].
    split; [|split; [lia|done]].
    f_equal. rewrite drop_insert_lt by lia.
    rewrite (drop_S _ _ _ Hx). unfold frame_of. cbn [map concat app].
    unfold x'. by rewrite Hblind.
Qed.

(** When no [Connect] to come fails the connect step goes through, and
    leaves the sink as it is. *)
Lemma connect_step_spec (st : sending) :
  Forall (fun d => d = None) (dials (conn (s_client st))) ->
  exists k,
    connect_step st
    = Some {| s_client := with_conn (s_client st) k; s_buf := s_buf st;
              s_ntf := s_ntf st; s_sended := s_sended st;
              s_tick := s_tick st |} /\
    wire k = wire (conn (s_client st)) /\
    Forall (fun d => d = None) (dials k).
Proof.
  intros Hd. unfold connect_step, Conn_Connect.
  destruct (isConnected (conn (s_client st))).
  - exists (conn (s_client st)). split; [|done].
    destruct st as [[] ? ? ? ?]; done.
  - destruct (dials (conn (s_client st))) as [|[e|] rest].
    + by eexists.
    + by inversion Hd.
    + inversion Hd; subst. by eexists.
Qed.

(** Moving the item in hand to the buffer keeps what there is to deliver
    and takes one unit off the work ahead. *)
Lemma put_in_buffer_spec (st : sending) (x : notification) :
  s_ntf st = Some x -> in_hand_ok st ->
  cursor_in_range (queue (s_client st)) ->
  let st2 := put_in_buffer clock st x in
  conn (s_client st2) = conn (s_client st) /\
  isSendign (s_client st2) = isSendign (s_client st) /\
  cursor_in_range (queue (s_client st2)) /\ in_hand_ok st2 /\
  Forall2 same_or_stamped (qlist (queue (s_client st)))
    (qlist (queue (s_client st2))) /\
  counter (queue (s_client st2)) = counter (queue (s_client st)) /\
  todo st2 = todo st /\ S (load st2) = load st.
Proof.
  intros Hx Hh Hr. unfold in_hand_ok in Hh. rewrite Hx in Hh.
  destruct Hh as (i & Hi & Hl).
  unfold put_in_buffer, todo, load, in_hand_ok, cursor_in_range in *.
  cbn [s_client s_buf s_ntf with_queue conn isSendign queue qlist counter
       idUnsended hand_bytes].
  rewrite Hx, Hi, length_insert. cbn [pred hand_bytes].
  split; [done|]. split; [done|]. split; [lia|]. split; [done|].
  split; [by apply Forall2_same_or_stamped_insert|]. split; [done|].
  split; [|lia].
  rewrite drop_insert_lt by lia. by rewrite <- app_assoc.
Qed.

Lemma delivered_trans (st st2 : sending) :
  concat (wrote (wire (conn (s_client st2)))) ++ todo st2
  = concat (wrote (wire (conn (s_client st)))) ++ todo st ->
  Forall2 same_or_stamped (qlist (queue (s_client st)))
    (qlist (queue (s_client st2))) ->
  counter (queue (s_client st2)) = counter (queue (s_client st)) ->
  isSendign (s_client st2) = isSendign (s_client st) ->
  forall st', delivered st2 st' -> delivered st st'.
Proof.
  intros Hw HF Hc Hs st' (D1 & D2 & D3 & D4 & D5 & D6). unfold delivered.
  rewrite <- Hw, <- Hc, <- Hs. repeat split; try done.
  by eapply Forall2_same_or_stamped_trans.
Qed.

(** The state after a flush: nothing is lost, and a failed flush has used up
    a fault of the sink. *)
Lemma flushed_spec (st1 : sending) (b' : list byte) (k : Conn) (n : Z)
    (e : option error) (sd tk : nat) :
  Conn_flush (s_buf st1) (conn (s_client st1)) = (b', k, n, e) ->
  ready st1 ->
  let st2 := {| s_client := with_conn (s_client st1) k; s_buf := b';
                s_ntf := s_ntf st1; s_sended := sd; s_tick := tk |} in
  (forall st', delivered st2 st' -> delivered st1 st') /\
  ready st2 /\
  match e with
  | None => b' = [] /\ (load st2 <= load st1)%nat
  | Some _ => (load st2 < load st1)%nat
  end.
Proof.
  intros Hfl (Hd & Hr & Hh) st2.
  apply Conn_flush_spec in Hfl as (Hw & Hdk & He).
  split; [|split; [split; [|done]|]].
  - apply delivered_trans; try done; [|apply Forall2_same_or_stamped].
    unfold st2, todo. cbn [s_client s_buf s_ntf with_conn conn queue].
    by rewrite !app_assoc, Hw.
  - unfold st2. cbn [s_client with_conn conn]. by rewrite Hdk.
  - unfold st2, load. cbn [s_client s_ntf with_conn conn queue].
    destruct e; [lia|]. split; [apply He|lia].
Qed.

Lemma reconnect_spec (st2 : sending) :
  ready st2 ->
  exists st3, connect_step st2 = Some st3 /\
    (forall st', delivered st3 st' -> delivered st2 st') /\
    ready st3 /\ load st3 = load st2.
Proof.
  intros (Hd & Hr & Hh).
  destruct (connect_step_spec st2 Hd) as (k & -> & Hw & Hdk).
  eexists. split; [done|]. split; [|split; [done|]].
  - apply delivered_trans; try done; [|apply Forall2_same_or_stamped].
    unfold todo. cbn [s_client s_buf s_ntf with_conn conn queue].
    by rewrite Hw.
  - unfold load. cbn [s_client s_ntf with_conn conn queue]. by rewrite Hw.
Qed.

Lemma put_in_buffer_ready (st2 : sending) (x : notification) :
  s_ntf st2 = Some x -> ready st2 ->
  let st3 := put_in_buffer clock st2 x in
  (forall st', delivered st3 st' -> delivered st2 st') /\
  ready st3 /\ S (load st3) = load st2.
Proof.
  intros Hx (Hd & Hr & Hh) st3.
  destruct (put_in_buffer_spec st2 x Hx Hh Hr)
    as (Pc & Ps & Pr & Ph & PF & Pcnt & Ptodo & Pload).
  split; [|split; [split; [unfold st3; by rewrite Pc|done]|done]].
  apply delivered_trans; try done. unfold st3. by rewrite Pc, Ptodo.
Qed.

(** With more fuel than there is work ahead the loop returns, and has
    delivered everything. *)
Lemma send_loop_delivers (fuel : nat) (st : sending) :
  ready st -> (load st < fuel)%nat ->
  exists st', send_loop clock fuel st = Returns st' /\ delivered st st'.
Proof.
  revert st. induction fuel as [|fuel IH]; intros st (Hd & Hr & Hh) Hl;
    [lia|].
  cbn [send_loop].
  pose proof (fetch_spec st Hr Hh)
    as (Hc & Hs & _ & Hb & Hr1 & Hh1 & HF & Hcnt & Htodo & Hload & Hend).
  cbv zeta in *.
  set (st1 := fetch clock st) in *.
  assert (Hback : forall st', delivered st1 st' -> delivered st st')
    by (apply delivered_trans; try done; by rewrite Hc, Htodo).
  assert (Hready : ready st1) by (split; [by rewrite Hc|done]).
  rewrite <- Hload in Hl.
  clearbody st1. clear Hc Hs Hb HF Hcnt Htodo Hload Hd Hr Hh Hr1 Hh1.
  assert (Hput : forall st2 x,
    s_ntf st2 = Some x -> ready st2 -> (load st2 < S fuel)%nat ->
    (forall st', delivered st2 st' -> delivered st st') ->
    exists st', send_loop clock fuel (put_in_buffer clock st2 x)
                = Returns st' /\ delivered st st').
  { intros st2 x Hx Hr2 Hl2 Hb2.
    destruct (put_in_buffer_ready st2 x Hx Hr2) as (Pb & Pr & Pl).
    destruct (IH _ Pr) as (st' & Heq & D); [lia|].
    exists st'. split; [done|]. by apply Hb2, Pb. }
  destruct (s_ntf st1) as [x|] eqn:Hx.
  - destruct (MaxFrameBuffer <? Z.of_nat (length (s_buf st1)) + Len x);
      [|by apply Hput].
    destruct (Conn_flush (s_buf st1) (conn (s_client st1)))
      as [[[b' k] n] [e|]] eqn:Hfl.
    + destruct (flushed_spec st1 _ _ _ _ (s_sended st1) (s_tick st1)
                  Hfl Hready) as (Fb & Fr & Fl).
      rewrite Hx in *.
      destruct (reconnect_spec _ Fr) as (st3 & -> & Cb & Cr & Cl).
      destruct (IH _ Cr) as (st' & Heq & D); [lia|].
      exists st'. split; [done|]. by apply Hback, Fb, Cb.
    + destruct (flushed_spec st1 _ _ _ _ 0%nat (S (s_tick st1))
                  Hfl Hready) as (Fb & Fr & _ & Fl).
      rewrite Hx in *. cbn [s_ntf].
      apply Hput; [done|done|lia|]. intros st' D. by apply Hback, Fb.
  - destruct (Conn_flush (s_buf st1) (conn (s_client st1)))
      as [[[b' k] n] [e|]] eqn:Hfl.
    + destruct (flushed_spec st1 _ _ _ _ (s_sended st1) (s_tick st1)
                  Hfl Hready) as (Fb & Fr & Fl).
      rewrite Hx in *.
      destruct (reconnect_spec _ Fr) as (st3 & -> & Cb & Cr & Cl).
      destruct (IH _ Cr) as (st' & Heq & D); [lia|].
      exists st'. split; [done|]. by apply Hback, Fb, Cb.
    + destruct (flushed_spec st1 _ _ _ _ 0%nat (S (s_tick st1))
                  Hfl Hready) as (Fb & Fr & -> & Fl).
      rewrite Hx in *. cbn [s_ntf].
      eexists. split; [done|]. apply Hback, Fb.
      unfold delivered, todo.
      cbn [s_client s_buf s_ntf with_conn conn queue isSendign hand_bytes].
      rewrite (Hend eq_refl), drop_all.
      split; [by rewrite !app_nil_r|].
      repeat split; try done. apply Forall2_same_or_stamped.
Qed.

(** X19: run on its own, with a serializer that does not look at the send
    time, a queue whose cursor is in range and no [Connect] to come that
    fails, [sendQueue] returns, whatever writes of the sink fail or stop
    short.  The bytes the sink has then taken are those it had taken before
    followed by the pending items, each once and in queue order; nothing is
    pending any more, the flag [isSendign] is down, and the queue differs
    from the old one by send times only. *)
Theorem sendQueue_delivers_pending (c : Client) :
  Forall (fun d => d = None) (dials (conn c)) ->
  cursor_in_range (queue c) ->
  isSendign c = false ->
  exists c',
    sendQueue clock c = Returns c' /\
    concat (wrote (wire (conn c')))
    = concat (wrote (wire (conn c)))
      ++ frame_of (drop (idUnsended (queue c)) (qlist (queue c))) /\
    IsHasToSend (queue c') = false /\
    isSendign c' = false /\
    Forall2 same_or_stamped (qlist (queue c)) (qlist (queue c')) /\
    counter (queue c') = counter (queue c).
Proof.
  intros Hd Hr Hs. unfold sendQueue, IsHasToSend. rewrite Hs.
  destruct (idUnsended (queue c) <? length (qlist (queue c)))%nat eqn:Hp;
    cbn [negb].
  - set (st := {| s_client := with_isSendign c true; s_buf := [];
                  s_ntf := None; s_sended := 0; s_tick := 0 |}).
    assert (Hst : ready st) by done.
    destruct (reconnect_spec st Hst) as (st1 & -> & Cb & Cr & Cl).
    destruct (send_loop_delivers
                (S (length (qlist (queue c)) - idUnsended (queue c)
                    + length (faults (wire (conn c))))) st1 Cr)
      as (st2 & -> & D).
    { rewrite Cl. unfold st, load.
      cbn [s_client s_ntf with_isSendign conn queue]. lia. }
    apply Cb in D. destruct D as (D1 & D2 & D3 & D4 & D5 & D6).
    eexists. split; [done|].
    cbn [with_isSendign conn queue isSendign].
    split; [by rewrite D1|]. split; [|done].
    rewrite D3. apply Nat.ltb_irrefl.
  - exists c. apply Nat.ltb_ge in Hp. unfold cursor_in_range in Hr.
    rewrite drop_ge by lia. unfold frame_of. cbn [map concat].
    rewrite app_nil_r. repeat split; try done.
    + by apply Nat.ltb_ge.
    + apply Forall2_same_or_stamped.
Qed.

End SendQueueFacts.

Lemma sendQueue_delivers_pending_witness :
  Sended_blind (H := fixed100) /\
  Forall (fun d => d = None) (dials (conn client30)) /\
  cursor_in_range (queue client30) /\
  isSendign client30 = false /\
  exists c',
    sendQueue (H := fixed100) noon client30 = Returns c' /\
    concat (wrote (wire (conn c')))
    = concat (wrote (wire (conn client30)))
      ++ frame_of (H := fixed100)
           (drop (idUnsended (queue client30)) (qlist (queue client30))) /\
    IsHasToSend (queue c') = false /\
    isSendign c' = false /\
    Forall2 same_or_stamped (qlist (queue client30)) (qlist (queue c')) /\
    counter (queue c') = counter (queue client30).
Proof.
  assert (Hb : Sended_blind (H := fixed100)) by (by intros x t).
  assert (Hd : Forall (fun d => d = None) (dials (conn client30)))
    by constructor.
  assert (Hr : cursor_in_range (queue client30))
    by (vm_compute; lia).
  assert (Hs : isSendign client30 = false) by reflexivity.
  split; [exact Hb|]. split; [exact Hd|]. split; [exact Hr|].
  split; [exact Hs|].
  exact (sendQueue_delivers_pending noon Hb client30 Hd Hr Hs).
Defined.

(** ** The frames of the send loop *)

(** A flush writes nothing larger than the buffer and leaves the buffer no
    longer than it was. *)
Lemma Conn_flush_frames (b b' : list byte) (c k : Conn) (n : Z)
    (e : option error) :
  Conn_flush b c = (b', k, n, e) ->
  (length b' <= length b)%nat /\
  exists frames,
    wrote (wire k) = wrote (wire c) ++ frames /\
    Forall (fun f => (length f <= length b)%nat) frames.
Proof.
  unfold Conn_flush.
  destruct (Buffer_WriteTo b (wire c)) as [[[b1 w1] n1] e1] eqn:Hb.
  intros [= <- <- <- <-]. cbn [wire].
  apply Buffer_WriteTo_spec in Hb as (frames & Hw & _ & Hle & Hcat & _).
  split; [|by exists frames].
  rewrite <- Hcat, length_app. lia.
Qed.

Section SendQueueFrames.
Context `{Package}.
Variable clock : nat -> Time.
Hypothesis Hblind : Sended_blind.
Hypothesis Hexact : Len_exact.

Lemma Len_set_Sended (x : notification) (t : Time) :
  Len (set_Sended x t) = Len x.
Proof. by rewrite <- !Hexact, Hblind. Qed.

Lemma framed_refl (st : sending) : framed st st.
Proof. exists []. by rewrite app_nil_r. Qed.

Lemma framed_trans (st st2 st' : sending) :
  framed st st2 -> framed st2 st' -> framed st st'.
Proof.
  intros (f1 & H1 & F1) (f2 & H2 & F2). exists (f1 ++ f2).
  split; [by rewrite H2, H1, app_assoc|by apply Forall_app].
Qed.

Lemma fetch_small (st : sending) :
  small st ->
  let st1 := fetch clock st in
  small st1 /\ conn (s_client st1) = conn (s_client st).
Proof.
  intros (Hb & Hh & Hp) st1. unfold st1, fetch.
  destruct (s_ntf st) as [x|] eqn:Hntf; [by rewrite <- Hntf in *|].
  set (q := queue (s_client st)) in *.
  assert (Hnone : forall t, (length (qlist q) <= idUnsended q)%nat ->
            Get t q = (q, None)) by (intros; by apply Get_nothing_pending).
  destruct (Get_cases (clock (s_tick st)) q) as [[Hle ->]|(x & Hx & ->)].
  - destruct (0 <? Delay (s_client st)); [rewrite Hnone by done|];
      (split; [|done]); unfold small;
      cbn [s_client s_buf s_ntf with_queue queue]; done.
  - split; [|done]. unfold small.
    cbn [s_client s_buf s_ntf with_queue queue qlist idUnsended].
    rewrite (drop_S _ _ _ Hx) in Hp. inversion Hp; subst.
    split; [done|]. split.
    + intros y [= <-]. by rewrite Len_set_Sended.
    + rewrite drop_insert_lt by lia. done.
Qed.

Lemma connect_step_Some (st st3 : sending) :
  connect_step st = Some st3 ->
  wire (conn (s_client st3)) = wire (conn (s_client st)) /\
  s_buf st3 = s_buf st /\ s_ntf st3 = s_ntf st /\
  queue (s_client st3) = queue (s_client st).
Proof.
  unfold connect_step, Conn_Connect.
  destruct (isConnected (conn (s_client st))); [by intros [= <-]|].
  destruct (dials (conn (s_client st))) as [|[e|] rest];
    by intros [= <-].
Qed.

Lemma put_in_buffer_small (st : sending) (x : notification) :
  s_ntf st = Some x -> small st ->
  Z.of_nat (length (s_buf st)) + Len x <= MaxFrameBuffer ->
  let st2 := put_in_buffer clock st x in
  small st2 /\ conn (s_client st2) = conn (s_client st).
Proof.
  intros Hx (Hb & Hh & Hp) Hroom st2. split; [|done].
  unfold st2, put_in_buffer, small.
  cbn [s_client s_buf s_ntf with_queue queue qlist idUnsended].
  split; [rewrite length_app, Nat2Z.inj_add, Hexact; lia|].
  split; [done|].
  rewrite drop_insert. case_match; [|done].
  apply Forall_insert; [done|]. rewrite Len_set_Sended. by apply Hh.
Qed.

Lemma flushed_small (st1 : sending) (b' : list byte) (k : Conn) (n : Z)
    (e : option error) (sd tk : nat) :
  Conn_flush (s_buf st1) (conn (s_client st1)) = (b', k, n, e) ->
  small st1 ->
  let st2 := {| s_client := with_conn (s_client st1) k; s_buf := b';
                s_ntf := s_ntf st1; s_sended := sd; s_tick := tk |} in
  small st2 /\ framed st1 st2 /\ (e = None -> b' = []).
Proof.
  intros Hfl (Hb & Hh & Hp) st2.
  pose proof (Conn_flush_spec _ _ _ _ _ _ Hfl) as (_ & _ & He).
  apply Conn_flush_frames in Hfl as (Hlen & frames & Hw & Hle).
  split; [|split].
  - unfold st2, small. cbn [s_client s_buf s_ntf with_conn queue].
    split; [lia|done].
  - exists frames. split; [done|].
    eapply Forall_impl; [exact Hle|]. cbn. intros f Hf. lia.
  - intros ->. apply He.
Qed.

Lemma reconnect_small (st2 st3 : sending) :
  connect_step st2 = Some st3 -> small st2 ->
  small st3 /\ framed st2 st3.
Proof.
  intros Hc (Hb & Hh & Hp).
  apply connect_step_Some in Hc as (Hw & Hbuf & Hntf & Hq).
  split.
  - unfold small. by rewrite Hbuf, Hntf, Hq.
  - exists []. by rewrite app_nil_r, Hw.
Qed.

(** From a state that holds nothing larger than a frame, the loop writes
    frames within the limit only. *)
Lemma send_loop_framed (fuel : nat) (st st' : sending) :
  small st -> send_loop clock fuel st = Returns st' -> framed st st'.
Proof.
  revert st. induction fuel as [|fuel IH]; intros st Hsm; [done|].
  cbn [send_loop].
  destruct (fetch_small st Hsm) as (Hsm1 & Hc). cbv zeta in *.
  set (st1 := fetch clock st) in *.
  unfold framed at 1. rewrite <- Hc. fold (framed st1 st').
  clearbody st1. clear Hc Hsm st.
  assert (Hput : forall st2 x,
    s_ntf st2 = Some x -> small st2 ->
    Z.of_nat (length (s_buf st2)) + Len x <= MaxFrameBuffer ->
    send_loop clock fuel (put_in_buffer clock st2 x) = Returns st' ->
    framed st2 st').
  { intros st2 x Hx Hs2 Hroom Hrun.
    destruct (put_in_buffer_small st2 x Hx Hs2 Hroom) as (Ps & Pc).
    apply IH in Hrun; [|done]. unfold framed in *. by rewrite <- Pc. }
  assert (Hfail : forall st2,
    small st2 ->
    match connect_step st2 with
    | Some st3 => send_loop clock fuel st3
    | None => Panics
    end = Returns st' -> framed st2 st').
  { intros st2 Hs2. destruct (connect_step st2) as [st3|] eqn:Hcs; [|done].
    destruct (reconnect_small _ _ Hcs Hs2) as (Hs3 & Hf3). intros Hrun.
    eapply framed_trans; [exact Hf3|by apply IH]. }
  destruct (s_ntf st1) as [x|] eqn:Hx.
  - destruct (MaxFrameBuffer <? Z.of_nat (length (s_buf st1)) + Len x)
      eqn:Hfull.
    + destruct (Conn_flush (s_buf st1) (conn (s_client st1)))
        as [[[b' k] n] [e|]] eqn:Hfl.
      * destruct (flushed_small st1 _ _ _ _ (s_sended st1) (s_tick st1)
                    Hfl Hsm1) as (Fs & Ff & _).
        rewrite Hx in *. intros Hrun.
        eapply framed_trans; [exact Ff|by apply Hfail].
      * destruct (flushed_small st1 _ _ _ _ 0%nat (S (s_tick st1))
                    Hfl Hsm1) as (Fs & Ff & Fe).
        rewrite Hx in *. cbn [s_ntf]. intros Hrun.
        eapply framed_trans; [exact Ff|].
        eapply Hput; [done|done| |exact Hrun].
        cbn [s_buf]. rewrite (Fe eq_refl). cbn [length].
        destruct Hsm1 as (_ & Hh & _). specialize (Hh x Hx). lia.
    + apply Hput; [done|done|]. by apply Z.ltb_ge.
  - destruct (Conn_flush (s_buf st1) (conn (s_client st1)))
      as [[[b' k] n] [e|]] eqn:Hfl.
    + destruct (flushed_small st1 _ _ _ _ (s_sended st1) (s_tick st1)
                  Hfl Hsm1) as (Fs & Ff & _).
      rewrite Hx in *. intros Hrun.
      eapply framed_trans; [exact Ff|by apply Hfail].
    + destruct (flushed_small st1 _ _ _ _ 0%nat (S (s_tick st1))
                  Hfl Hsm1) as (Fs & Ff & Fe).
      rewrite Hx in *. cbn [s_ntf]. by intros [= <-].
Qed.

(** X20: when moreover [Len] announces the bytes that the serializer writes
    and no pending item is longer than [MaxFrameBuffer], no write that
    [sendQueue] makes to the connection is larger than [MaxFrameBuffer],
    also after failed and short writes. *)
Theorem sendQueue_frames_within_limit (c : Client) :
  Forall (fun x => Len x <= MaxFrameBuffer)
    (drop (idUnsended (queue c)) (qlist (queue c))) ->
  Forall (fun d => d = None) (dials (conn c)) ->
  cursor_in_range (queue c) ->
  exists c' frames,
    sendQueue clock c = Returns c' /\
    wrote (wire (conn c')) = wrote (wire (conn c)) ++ frames /\
    Forall (fun f => Z.of_nat (length f) <= MaxFrameBuffer) frames.
Proof.
  intros Hp Hd Hr. unfold sendQueue.
  assert (Hidle : exists frames, Returns c = Returns c /\
            wrote (wire (conn c)) = wrote (wire (conn c)) ++ frames /\
            Forall (fun f => Z.of_nat (length f) <= MaxFrameBuffer) frames)
    by (exists []; by rewrite app_nil_r).
  destruct (isSendign c); [by exists c|].
  destruct (IsHasToSend (queue c)) eqn:Hsend; cbn [negb]; [|by exists c].
  clear Hidle.
  assert (Hmax : 0 <= MaxFrameBuffer).
  { apply Nat.ltb_lt, lookup_lt_is_Some in Hsend as [x Hx].
    rewrite (drop_S _ _ _ Hx) in Hp. inversion Hp; subst.
    pose proof (Hexact x). lia. }
  set (st := {| s_client := with_isSendign c true; s_buf := [];
                s_ntf := None; s_sended := 0; s_tick := 0 |}).
  assert (Hst : ready st) by done.
  assert (Hsm : small st) by (unfold small, st; cbn; done).
  destruct (reconnect_spec st Hst) as (st1 & Hcs & _ & Cr & Cl).
  rewrite Hcs.
  destruct (reconnect_small _ _ Hcs Hsm) as (Hsm1 & Hf1).
  destruct (send_loop_delivers clock Hblind
              (S (length (qlist (queue c)) - idUnsended (queue c)
                  + length (faults (wire (conn c))))) st1 Cr)
    as (st2 & Hrun & _).
  { rewrite Cl. unfold st, load.
    cbn [s_client s_ntf with_isSendign conn queue]. lia. }
  rewrite Hrun.
  destruct (framed_trans _ _ _ Hf1 (send_loop_framed _ _ _ Hsm1 Hrun))
    as (frames & Hw & Hle).
  exists (with_isSendign (s_client st2) false), frames. done.
Qed.
End SendQueueFrames.

Lemma sendQueue_frames_within_limit_witness :
  Sended_blind (H := fixed100) /\
  Len_exact (H := fixed100) /\
  Forall (fun x => @Len fixed100 x <= @MaxFrameBuffer fixed100)
    (drop (idUnsended (queue client30)) (qlist (queue client30))) /\
  Forall (fun d => d = None) (dials (conn client30)) /\
  cursor_in_range (queue client30) /\
  exists c' frames,
    sendQueue (H := fixed100) noon client30 = Returns c' /\
    wrote (wire (conn c')) = wrote (wire (conn client30)) ++ frames /\
    Forall (fun f => Z.of_nat (length f) <= @MaxFrameBuffer fixed100) frames.
Proof.
  assert (Hb : Sended_blind (H := fixed100)) by (by intros x t).
  assert (He : Len_exact (H := fixed100)).
  { intros x. cbn. unfold wire100.
    by destruct (Byte.of_N (Z.to_N (ID x mod 256))). }
  assert (Hp : Forall (fun x => @Len fixed100 x <= @MaxFrameBuffer fixed100)
    (drop (idUnsended (queue client30)) (qlist (queue client30)))).
  { apply Forall_forall. intros x _. cbn. lia. }
  assert (Hd : Forall (fun d => d = None) (dials (conn client30)))
    by constructor.
  assert (Hr : cursor_in_range (queue client30))
    by (vm_compute; lia).
  split; [exact Hb|]. split; [exact He|]. split; [exact Hp|].
  split; [exact Hd|]. split; [exact Hr|].
  exact (sendQueue_frames_within_limit noon Hb He client30 Hp Hd Hr).
Defined.

(** * Two send loops at once *)

(** C9: three calls of [Send] on a new client.  The first one starts the
    send loop.  While that loop is active (the flag [isSendign] is up and
    the loop stands between its last, empty [Get] and the clearing of the
    flag) the two other calls arrive and queue their items.  The loop
    returns, both calls find the flag down and start [sendQueue], and since
    [sendQueue] reads the flag in one lock section and sets it in another,
    both goroutines pass the test: in the end two send loops are active at
    once. *)
Theorem two_send_loops_at_once :
  exists mid final : program (H := fixed100),
    run noon until_last_Get three_sends = Goes_on mid /\
    isSendign (shared mid) = true /\
    List.filter in_send_loop (goroutines mid) = [sendQueue_clear_flag] /\
    goroutines mid !! 1%nat = Some one_send /\
    goroutines mid !! 2%nat = Some one_send /\
    run noon two_late_sends mid = Goes_on final /\
    isSendign (shared final) = true /\
    List.filter in_send_loop (goroutines final)
    = [loop_entered; loop_entered].
Proof.
  eexists _, _.
  do 7 (split; [vm_compute; reflexivity|]).
  vm_compute; reflexivity.
Qed.
